(** * gpx-anonymizer: a shallow embedding of [gpx-anonymizer.py]

    The script removes the track points of a GPX document that fall inside
    rectangles or circles given on the command line, splits the track
    segments where points were removed, classifies the short segments that
    lie near a region as stray, optionally drops them, and writes the
    segments back into the tracks.

    Modelling choices.
    - Python's [float] coordinates and distances are real numbers ([R]);
      rounding of binary64 arithmetic is outside the model.  [math.sin],
      [math.cos], [math.sqrt] are the functions of the same name of the
      Standard Library, [math.atan2] is defined from [atan] below, and
      [min]/[max] on two floats are [Rmin]/[Rmax].
    - Comparisons that the script uses as conditions are booleans obtained
      with [bool_decide] from the decidable order of [R].
    - [math.sqrt] raises on a negative argument and float division on a
      zero divisor.  Over the reals [haversine] takes square roots of
      numbers in [[0, 1]] only ([haversine_sqrt_arguments]) and divides
      by the constant 2 only.  In binary64 the number [a] can round to
      just above 1 for two exactly antipodal points, and [math.sqrt]
      then raises: the model describes the runs that return.
    - An ElementTree element is a value: a point carries its parsed
      latitude and longitude and, uninterpreted, its other attributes and
      its children.  The script never writes to a point.  A point without
      a [lat] or [lon] attribute makes the script fail before it writes
      anything; the documents of the model have both on every point.
    - The namespace of the document only decides how the tags are spelt;
      the model has the [<trk>], [<trkseg>] and [<trkpt>] elements that
      [findall] returns.
    - Python lists updated by index ([counts[idx] += 1],
      [stray[i].append(x)]) are lists updated with [alter]; the set of
      stray indices is a [gset nat]. *)

From Stdlib Require Import Reals Lra Psatz String.
From stdpp Require Import base decidable list gmap.

#[local] Set Warnings "-clear-no-such-hyp".

(** ** Numbers *)

#[global] Instance Rle_decision (x y : R) : Decision (x <= y)%R := Rle_dec x y.
#[global] Instance Rlt_decision (x y : R) : Decision (x < y)%R := Rlt_dec x y.

Section GeoMath.
Local Open Scope R_scope.

(** [math.radians]. *)
Definition radians (deg : R) : R := deg * (PI / 180).

(** [math.atan2 y x]: the angle of the point [(x, y)], in [(-PI, PI]]. *)
Definition atan2 (y x : R) : R :=
  if decide (0 < x) then atan (y / x)
  else if decide (x < 0) then
    (if decide (0 <= y) then atan (y / x) + PI else atan (y / x) - PI)
  else if decide (0 < y) then PI / 2
  else if decide (y < 0) then - (PI / 2)
  else 0.

(** A rectangle is the 4-tuple [(lat1, lon1, lat2, lon2)] of two diagonal
    corners; a circle is the 3-tuple [(center_lat, center_lon, radius)]. *)
Definition rect : Type := R * R * R * R.
Definition circle : Type := R * R * R.

(** [haversine(lat1, lon1, lat2, lon2)], lines 7-17. *)
Definition haversine (lat1 lon1 lat2 lon2 : R) : R :=
  let R_earth := 6371000 in
  let phi1 := radians lat1 in
  let phi2 := radians lat2 in
  let dphi := radians (lat2 - lat1) in
  let dlambda := radians (lon2 - lon1) in
  let a := sin (dphi / 2) ^ 2 + cos phi1 * cos phi2 * sin (dlambda / 2) ^ 2 in
  let c := 2 * atan2 (sqrt a) (sqrt (1 - a)) in
  R_earth * c.

(** [point_in_rect(lat, lon, rect)], lines 19-26. *)
Definition point_in_rect (lat lon : R) (rc : rect) : bool :=
  let '(lat1, lon1, lat2, lon2) := rc in
  let min_lat := Rmin lat1 lat2 in
  let max_lat := Rmax lat1 lat2 in
  let min_lon := Rmin lon1 lon2 in
  let max_lon := Rmax lon1 lon2 in
  (bool_decide (min_lat <= lat) && bool_decide (lat <= max_lat))
  && (bool_decide (min_lon <= lon) && bool_decide (lon <= max_lon)).

(** [point_in_circle(lat, lon, circle)], lines 28-33. *)
Definition point_in_circle (lat lon : R) (c : circle) : bool :=
  let '(center_lat, center_lon, radius) := c in
  bool_decide (haversine lat lon center_lat center_lon <= radius).

(** [point_in_circle_vicinity(lat, lon, circle, global_vicinity=None)],
    lines 35-42. *)
Definition point_in_circle_vicinity
    (lat lon : R) (c : circle) (global_vicinity : option R) : bool :=
  let '(center_lat, center_lon, radius) := c in
  let effective_vicinity :=
    match global_vicinity with Some v => v | None => radius end in
  bool_decide
    (haversine lat lon center_lat center_lon <= radius + effective_vicinity).

(** The default vicinity of a rectangle, lines 50-56 of
    [point_in_expanded_rectangle]. *)
Definition default_vicinity (rc : rect) : R :=
  let '(lat1, lon1, lat2, lon2) := rc in
  let min_lat := Rmin lat1 lat2 in
  let max_lat := Rmax lat1 lat2 in
  let min_lon := Rmin lon1 lon2 in
  let max_lon := Rmax lon1 lon2 in
  let center_lat := (min_lat + max_lat) / 2 in
  let width := haversine center_lat min_lon center_lat max_lon in
  let height :=
    haversine min_lat ((min_lon + max_lon) / 2) max_lat ((min_lon + max_lon) / 2) in
  Rmin width height / 2.

(** [point_in_expanded_rectangle(lat, lon, rect, global_vicinity=None)],
    lines 44-65.  The division that gives [d_lon] is the total division of
    [R].  At a centre latitude of exactly 90 or -90 degrees the cosine is
    0 over the reals and [d_lon] is 0 here, while the binary64 cosine is a
    tiny positive number and the script gets a huge [d_lon]: the value of
    this function for such a rectangle with a vicinity other than 0 is
    not the script's.  The properties below that compute with this
    function do so with corners away from the poles or with a vicinity
    of 0; the properties of the passes relate them to this function
    whatever its value. *)
Definition point_in_expanded_rectangle
    (lat lon : R) (rc : rect) (global_vicinity : option R) : bool :=
  let '(lat1, lon1, lat2, lon2) := rc in
  let min_lat := Rmin lat1 lat2 in
  let max_lat := Rmax lat1 lat2 in
  let min_lon := Rmin lon1 lon2 in
  let max_lon := Rmax lon1 lon2 in
  let center_lat := (min_lat + max_lat) / 2 in
  let effective_vicinity :=
    match global_vicinity with Some v => v | None => default_vicinity rc end in
  let d_lat := effective_vicinity / 111111 in
  let d_lon := effective_vicinity / (111111 * cos (radians center_lat)) in
  let expanded_min_lat := min_lat - d_lat in
  let expanded_max_lat := max_lat + d_lat in
  let expanded_min_lon := min_lon - d_lon in
  let expanded_max_lon := max_lon + d_lon in
  (bool_decide (expanded_min_lat <= lat) && bool_decide (lat <= expanded_max_lat))
  && (bool_decide (expanded_min_lon <= lon) && bool_decide (lon <= expanded_max_lon)).

End GeoMath.

(** ** The document *)

(** An element of the document that the script does not look into. *)
#[warnings="-register-all"]
Inductive xml : Type :=
  | XElem (tag : string) (attrib : list (string * string)) (text : string)
          (children : list xml).

(** A [<trkpt>]: the floats read from its [lat] and [lon] attributes, its
    other attributes and its children. *)
Record trkpt : Type := mk_trkpt {
  pt_lat : R;
  pt_lon : R;
  pt_attrib : list (string * string);
  pt_children : list xml
}.

(** A [<trkseg>] is the list of its [<trkpt>] children; a [<trk>] is the
    list of its children, segments and others; the document is the list of
    the [<trk>] children of the root. *)
Definition trkseg : Type := list trkpt.

Inductive trk_child : Type :=
  | Seg (s : trkseg)
  | Other (e : xml).

Definition trk : Type := list trk_child.
Definition gpx : Type := list trk.

Definition is_trkseg (c : trk_child) : bool :=
  match c with Seg _ => true | Other _ => false end.

(** [trk.findall("default:trkseg", ns)]. *)
Definition trksegs (t : trk) : list trkseg :=
  omap (fun c => match c with Seg s => Some s | Other _ => None end) t.

(** The children left once every [<trkseg>] child was removed with
    [trk.remove]. *)
Definition remove_trksegs (t : trk) : trk :=
  List.filter (fun c => negb (is_trkseg c)) t.

Definition points_of_trk (t : trk) : list trkpt := concat (trksegs t).
Definition points_of_gpx (doc : gpx) : list trkpt := concat (map points_of_trk doc).

(** ** State of the passes *)

Record removal_stats : Type := mk_removal_stats {
  total_points_removed : nat;
  rect_removed_counts : list nat;
  circle_removed_counts : list nat
}.

(** The two lists that the first pass keeps while it reads one segment. *)
Record split_state : Type := mk_split_state {
  segments_from_trkseg : list trkseg;
  current_seg_points : list trkpt
}.

Record stray_stats : Type := mk_stray_stats {
  global_stray_indices : gset nat;
  stray_rect : list (list R);
  stray_circle : list (list R)
}.

Record output : Type := mk_output {
  out_doc : gpx;
  out_removed : removal_stats;
  out_new_segments : list trkseg;
  out_stray : stray_stats;
  out_final_segments : list trkseg
}.

Section Pipeline.

Variable rects : list rect.
Variable circles : list circle.
Variable max_stray_length : R.
Variable remove_stray : bool.
Variable max_stray_vicinity : option R.

(** *** First pass, lines 95-135 *)

(** [for idx, rect in enumerate(rects)], lines 109-112; [idx] is the index
    of the head of [rs].  [counts] is as long as the list of rectangles, so
    the update is never out of range. *)
Fixpoint mark_rects (lat lon : R) (idx : nat) (rs : list rect)
    (counts : list nat) (removed : bool) : list nat * bool :=
  match rs with
  | [] => (counts, removed)
  | rc :: rs' =>
      if point_in_rect lat lon rc
      then mark_rects lat lon (S idx) rs' (alter S idx counts) true
      else mark_rects lat lon (S idx) rs' counts removed
  end.

(** [for idx, circle in enumerate(circles)], lines 113-116. *)
Fixpoint mark_circles (lat lon : R) (idx : nat) (cs : list circle)
    (counts : list nat) (removed : bool) : list nat * bool :=
  match cs with
  | [] => (counts, removed)
  | c :: cs' =>
      if point_in_circle lat lon c
      then mark_circles lat lon (S idx) cs' (alter S idx counts) true
      else mark_circles lat lon (S idx) cs' counts removed
  end.

(** The body of [for trkpt in trkseg.findall(...)], lines 106-124. *)
Definition step_point (st : removal_stats * split_state) (p : trkpt)
    : removal_stats * split_state :=
  let '(cnt, sp) := st in
  let lat := pt_lat p in
  let lon := pt_lon p in
  let '(rcounts, removed) :=
    mark_rects lat lon 0 rects (rect_removed_counts cnt) false in
  let '(ccounts, removed) :=
    mark_circles lat lon 0 circles (circle_removed_counts cnt) removed in
  if removed then
    (mk_removal_stats (S (total_points_removed cnt)) rcounts ccounts,
     match current_seg_points sp with
     | [] => sp
     | _ :: _ =>
         mk_split_state
           (segments_from_trkseg sp ++ [current_seg_points sp]) []
     end)
  else
    (mk_removal_stats (total_points_removed cnt) rcounts ccounts,
     mk_split_state (segments_from_trkseg sp) (current_seg_points sp ++ [p])).

(** [if current_seg_points: segments_from_trkseg.append(...)], lines
    125-126. *)
Definition close_run (sp : split_state) : list trkseg :=
  match current_seg_points sp with
  | [] => segments_from_trkseg sp
  | _ :: _ => segments_from_trkseg sp ++ [current_seg_points sp]
  end.

(** One [<trkseg>], lines 103-126: the counters after it and the segments
    made from it. *)
Definition split_trkseg (cnt : removal_stats) (pts : trkseg)
    : removal_stats * list trkseg :=
  let '(cnt', sp) := foldl step_point (cnt, mk_split_state [] []) pts in
  (cnt', close_run sp).

(** One segment of one track, lines 102-135: the segments made from it are
    appended to [new_segments]. *)
Definition first_pass_trkseg (st : removal_stats * list trkseg) (pts : trkseg)
    : removal_stats * list trkseg :=
  let '(cnt, new_segments) := st in
  let '(cnt', segs) := split_trkseg cnt pts in
  (cnt', new_segments ++ segs).

Definition first_pass_trk (st : removal_stats * list trkseg) (t : trk)
    : removal_stats * list trkseg :=
  foldl first_pass_trkseg st (trksegs t).

Definition init_removal_stats : removal_stats :=
  mk_removal_stats 0 (replicate (length rects) 0) (replicate (length circles) 0).

(** The whole first pass: counters and [new_segments]. *)
Definition first_pass (doc : gpx) : removal_stats * list trkseg :=
  foldl first_pass_trk (init_removal_stats, []) doc.

(** *** Second pass, lines 146-182 *)

(** The loop of lines 156-162, [prev_pt] and the sum so far. *)
Fixpoint add_legs (prev_pt : trkpt) (pts : list trkpt) (seg_length : R) : R :=
  match pts with
  | [] => seg_length
  | pt :: rest =>
      add_legs pt rest
        (seg_length
         + haversine (pt_lat prev_pt) (pt_lon prev_pt) (pt_lat pt) (pt_lon pt))%R
  end.

(** Lines 151-162. *)
Definition seg_length (pts : trkseg) : R :=
  if decide (length pts < 2) then 0%R
  else match pts with
       | [] => 0%R
       | prev_pt :: rest => add_legs prev_pt rest 0%R
       end.

(** [for pt in pts], lines 167-173, for rectangle number [i]: the first
    point in the expanded rectangle records the segment and ends the
    loop. *)
Fixpoint scan_rect (rc : rect) (i seg_idx : nat) (len : R)
    (pts : list trkpt) (st : stray_stats) : stray_stats :=
  match pts with
  | [] => st
  | pt :: rest =>
      if point_in_expanded_rectangle (pt_lat pt) (pt_lon pt) rc max_stray_vicinity
      then mk_stray_stats ({[seg_idx]} ∪ global_stray_indices st)
             (alter (fun l => l ++ [len]) i (stray_rect st))
             (stray_circle st)
      else scan_rect rc i seg_idx len rest st
  end.

(** Lines 176-182, for circle number [i]. *)
Fixpoint scan_circle (c : circle) (i seg_idx : nat) (len : R)
    (pts : list trkpt) (st : stray_stats) : stray_stats :=
  match pts with
  | [] => st
  | pt :: rest =>
      if point_in_circle_vicinity (pt_lat pt) (pt_lon pt) c max_stray_vicinity
      then mk_stray_stats ({[seg_idx]} ∪ global_stray_indices st)
             (stray_rect st)
             (alter (fun l => l ++ [len]) i (stray_circle st))
      else scan_circle c i seg_idx len rest st
  end.

(** [for i, rect in enumerate(rects)], line 166. *)
Fixpoint scan_rects (i : nat) (rs : list rect) (seg_idx : nat) (len : R)
    (pts : list trkpt) (st : stray_stats) : stray_stats :=
  match rs with
  | [] => st
  | rc :: rs' => scan_rects (S i) rs' seg_idx len pts (scan_rect rc i seg_idx len pts st)
  end.

(** [for i, circle in enumerate(circles)], line 175. *)
Fixpoint scan_circles (i : nat) (cs : list circle) (seg_idx : nat) (len : R)
    (pts : list trkpt) (st : stray_stats) : stray_stats :=
  match cs with
  | [] => st
  | c :: cs' =>
      scan_circles (S i) cs' seg_idx len pts (scan_circle c i seg_idx len pts st)
  end.

(** The body of [for seg_idx, seg in enumerate(new_segments)], lines
    150-182. *)
Definition classify_segment (seg_idx : nat) (pts : trkseg) (st : stray_stats)
    : stray_stats :=
  let len := seg_length pts in
  if decide (len <= max_stray_length)%R then
    scan_circles 0 circles seg_idx len pts (scan_rects 0 rects seg_idx len pts st)
  else st.

Fixpoint classify_from (seg_idx : nat) (segs : list trkseg) (st : stray_stats)
    : stray_stats :=
  match segs with
  | [] => st
  | seg :: segs' => classify_from (S seg_idx) segs' (classify_segment seg_idx seg st)
  end.

Definition init_stray_stats : stray_stats :=
  mk_stray_stats ∅ (replicate (length rects) []) (replicate (length circles) []).

Definition second_pass (new_segments : list trkseg) : stray_stats :=
  classify_from 0 new_segments init_stray_stats.

(** *** Third pass, lines 201-214 *)

(** [[seg for idx, seg in enumerate(new_segments) if idx not in
    global_stray_indices]], [idx] being the index of the head. *)
Fixpoint keep_not_stray (idx : nat) (segs : list trkseg) (stray : gset nat)
    : list trkseg :=
  match segs with
  | [] => []
  | seg :: segs' =>
      if decide (idx ∈ stray) then keep_not_stray (S idx) segs' stray
      else seg :: keep_not_stray (S idx) segs' stray
  end.

Definition third_pass (new_segments : list trkseg) (stray : gset nat)
    : list trkseg :=
  if remove_stray then keep_not_stray 0 new_segments stray else new_segments.

(** Lines 209-214 for one track [t], as the first pass left it: its
    [<trkseg>] children are removed, then every segment of
    [final_segments] is appended. *)
Definition update_trk (final_segments : list trkseg) (t : trk) : trk :=
  remove_trksegs t ++ map Seg final_segments.

(** [process_gpx_with_stats], lines 95-214, on the parsed document. *)
Definition process_gpx_with_stats (doc : gpx) : output :=
  let '(cnt, new_segments) := first_pass doc in
  let doc1 := map remove_trksegs doc in
  let stray := second_pass new_segments in
  let final_segments := third_pass new_segments (global_stray_indices stray) in
  mk_output (map (update_trk final_segments) doc1)
            cnt new_segments stray final_segments.

End Pipeline.

(** ** The statistics of lines 184-198 *)

(** [min(lengths)] and [max(lengths)] on the non-empty list [x :: l]: the
    builtins keep the first item and replace it by each later item that
    is smaller (resp. larger). *)
Definition py_min (x : R) (l : list R) : R :=
  foldl (fun cur item => if decide (item < cur)%R then item else cur) x l.

Definition py_max (x : R) (l : list R) : R :=
  foldl (fun cur item => if decide (cur < item)%R then item else cur) x l.

(** [sum(lengths)]. *)
Definition py_sum (l : list R) : R := foldl Rplus 0%R l.

(** What the script logs for one region: nothing found, or the number of
    stray segments with the minimum, maximum and average of their
    lengths.  The average is the exact quotient here; the binary64 sum
    and division of line 189 round, so nothing is proved about it. *)
Inductive stray_report : Type :=
  | NoStraySegments
  | StraySegments (count : nat) (min_len max_len avg_len : R).

(** The body of the loops of lines 185-191 and 192-198. *)
Definition report_lengths (lengths : list R) : stray_report :=
  match lengths with
  | [] => NoStraySegments
  | x :: l =>
      StraySegments (length lengths) (py_min x l) (py_max x l)
        (py_sum lengths / INR (length lengths))%R
  end.

(** ** The command line, lines 218-276 *)

(** The namespace that [parser.parse_args()] returns. *)
Record cli_args : Type := mk_cli_args {
  arg_infile : option string;
  arg_outfile : option string;
  arg_input : option string;
  arg_output : option string;
  arg_rect : option (list rect);
  arg_circle : option (list circle);
  arg_remove_stray_segments : bool;
  arg_max_stray_length : R;
  arg_max_stray_vicinity : option R;
  arg_verbose : bool;
  arg_debug : bool
}.

Inductive log_level : Type := DEBUG | INFO | WARNING.

(** The truth value of a string or [None]: [None] and the empty string
    are false. *)
Definition truthy (s : option string) : bool :=
  match s with
  | None => false
  | Some s => negb (String.eqb s "")
  end.

(** [a or b]. *)
Definition py_or (a b : option string) : option string :=
  if truthy a then a else b.

(** The arguments of the call of [process_gpx_with_stats], lines
    275-276. *)
Record pipeline_call : Type := mk_pipeline_call {
  call_input_file : string;
  call_output_file : string;
  call_rects : list rect;
  call_circles : list circle;
  call_max_stray_length : R;
  call_remove_stray : bool;
  call_max_stray_vicinity : option R
}.

(** Lines 248-253. *)
Definition main_log_level (args : cli_args) : log_level :=
  if arg_debug args then DEBUG
  else if arg_verbose args then INFO
  else WARNING.

(** [main] up to the call of the pipeline: [None] when [parser.error]
    ends the program, lines 256-262 and 275-276. *)
Definition main (args : cli_args) : option pipeline_call :=
  let input_file := py_or (arg_infile args) (arg_input args) in
  let output_file := py_or (arg_outfile args) (arg_output args) in
  if negb (truthy input_file) || negb (truthy output_file) then None
  else
    match input_file, output_file with
    | Some i, Some o =>
        let manual_rects :=
          match arg_rect args with Some r => r | None => [] end in
        let manual_circles :=
          match arg_circle args with Some c => c | None => [] end in
        Some (mk_pipeline_call i o manual_rects manual_circles
                (arg_max_stray_length args) (arg_remove_stray_segments args)
                (arg_max_stray_vicinity args))
    | _, _ => None
    end.

(** The pipeline run with the arguments of a call, on the document read
    from the input file. *)
Definition run_call (c : pipeline_call) (doc : gpx) : output :=
  process_gpx_with_stats (call_rects c) (call_circles c)
    (call_max_stray_length c) (call_remove_stray c)
    (call_max_stray_vicinity c) doc.

(** * Vocabulary of the properties *)

(** A point lies on an edge of the rectangle when one coordinate is an
    extreme one of the rectangle and the other is within its bounds. *)
Definition on_rect_edge (lat lon : R) (rc : rect) : Prop :=
  let '(lat1, lon1, lat2, lon2) := rc in
  (((lat = Rmin lat1 lat2 \/ lat = Rmax lat1 lat2)
    /\ Rmin lon1 lon2 <= lon <= Rmax lon1 lon2)
   \/ ((lon = Rmin lon1 lon2 \/ lon = Rmax lon1 lon2)
       /\ Rmin lat1 lat2 <= lat <= Rmax lat1 lat2))%R.

(** The length of a segment in the words of the data model: the sum of the
    distances between consecutive points, 0 when there are fewer than two
    points. *)
Fixpoint path_length (pts : list trkpt) : R :=
  match pts with
  | p :: (q :: _) as rest =>
      (haversine (pt_lat p) (pt_lon p) (pt_lat q) (pt_lon q) + path_length rest)%R
  | _ => 0%R
  end.

Section MarkRegionsDef.
Context {A : Type} (hit : A -> bool).

(** The common shape of the loops of lines 109-112 and 113-116. *)
Fixpoint mark_regions (idx : nat) (rs : list A) (counts : list nat)
    (removed : bool) : list nat * bool :=
  match rs with
  | [] => (counts, removed)
  | r :: rs' =>
      if hit r then mark_regions (S idx) rs' (alter S idx counts) true
      else mark_regions (S idx) rs' counts removed
  end.

End MarkRegionsDef.

Section Vocabulary.

Variable rects : list rect.
Variable circles : list circle.
Variable max_stray_vicinity : option R.

(** The value of [removed] at line 117: the point matches some region. *)
Definition point_removed (p : trkpt) : bool :=
  existsb (point_in_rect (pt_lat p) (pt_lon p)) rects
  || existsb (point_in_circle (pt_lat p) (pt_lon p)) circles.

(** The number of regions that contain the point. *)
Definition regions_containing (p : trkpt) : nat :=
  length (List.filter (point_in_rect (pt_lat p) (pt_lon p)) rects)
  + length (List.filter (point_in_circle (pt_lat p) (pt_lon p)) circles).

(** [pts] cut into runs: each run is a gap of removed points followed by a
    segment of retained points, and [tail] is the gap after the last
    segment.  Only the first gap and the tail may be empty, so every
    segment is a maximal run of retained points. *)
Record run_decomposition
    (pts : list trkpt) (segs : list trkseg)
    (runs : list (list trkpt * trkseg)) (tail : list trkpt) : Prop :=
  mk_run_decomposition {
    rd_segs : segs = runs.*2;
    rd_pts : pts = concat (map (fun r => r.1 ++ r.2) runs) ++ tail;
    rd_runs :
      Forall (fun r => Forall (fun p => point_removed p = true) r.1
                       /\ r.2 <> []
                       /\ Forall (fun p => point_removed p = false) r.2) runs;
    rd_tail : Forall (fun p => point_removed p = true) tail;
    rd_interior : forall i r, runs !! S i = Some r -> r.1 <> []
  }.

(** The invariant of the loop over the points of a segment: [pre] is the
    part of the segment read so far. *)
Definition split_inv (pre : list trkpt) (sp : split_state)
    (runs : list (list trkpt * trkseg)) (gap : list trkpt) : Prop :=
  run_decomposition (concat (map (fun r => r.1 ++ r.2) runs) ++ gap)
    (segments_from_trkseg sp) runs gap
  /\ pre = concat (map (fun r => r.1 ++ r.2) runs) ++ gap ++ current_seg_points sp
  /\ Forall (fun p => point_removed p = false) (current_seg_points sp)
  /\ (runs <> [] -> gap <> []).

(** A segment the first pass can make: not empty, retained points only. *)
Definition clean_segment (s : trkseg) : Prop :=
  s <> [] /\ Forall (fun p => point_removed p = false) s.

(** The segments made from one original segment. *)
Definition segments_of (pts : trkseg) : list trkseg :=
  (split_trkseg rects circles (init_removal_stats rects circles) pts).2.

(** Some point of the segment is in the expanded zone of the region. *)
Definition near_rect (pts : trkseg) (rc : rect) : bool :=
  existsb (fun pt => point_in_expanded_rectangle (pt_lat pt) (pt_lon pt) rc
                       max_stray_vicinity) pts.

Definition near_circle (pts : trkseg) (c : circle) : bool :=
  existsb (fun pt => point_in_circle_vicinity (pt_lat pt) (pt_lon pt) c
                       max_stray_vicinity) pts.

Definition near_some_region (pts : trkseg) : bool :=
  existsb (near_rect pts) rects || existsb (near_circle pts) circles.

Definition record_rect (i seg_idx : nat) (len : R) (st : stray_stats) : stray_stats :=
  mk_stray_stats ({[seg_idx]} ∪ global_stray_indices st)
    (alter (fun l => l ++ [len]) i (stray_rect st)) (stray_circle st).

Definition record_circle (i seg_idx : nat) (len : R) (st : stray_stats) : stray_stats :=
  mk_stray_stats ({[seg_idx]} ∪ global_stray_indices st)
    (stray_rect st) (alter (fun l => l ++ [len]) i (stray_circle st)).

End Vocabulary.

(** A segment that the second pass flags: at most [max_stray_length] long
    and near a region. *)
Definition short_and_near (rects : list rect) (circles : list circle)
    (max_stray_length : R) (max_stray_vicinity : option R) (seg : trkseg) : bool :=
  bool_decide (seg_length seg <= max_stray_length)%R
  && near_some_region rects circles max_stray_vicinity seg.

(** The counters [cnt'] are the counters [cnt] after the points [pts] were
    read: the total grew by the number of removed points and the counter
    of each region by the number of points in that region. *)
Definition counts_after (rects : list rect) (circles : list circle)
    (cnt : removal_stats) (pts : list trkpt) (cnt' : removal_stats) : Prop :=
  total_points_removed cnt'
  = total_points_removed cnt
    + length (List.filter (point_removed rects circles) pts)
  /\ length (rect_removed_counts cnt') = length (rect_removed_counts cnt)
  /\ length (circle_removed_counts cnt') = length (circle_removed_counts cnt)
  /\ (forall i rc, rects !! i = Some rc ->
       rect_removed_counts cnt' !! i
       = (fun n => n + length (List.filter
                                (fun p => point_in_rect (pt_lat p) (pt_lon p) rc) pts))
         <$> rect_removed_counts cnt !! i)
  /\ (forall i c, circles !! i = Some c ->
       circle_removed_counts cnt' !! i
       = (fun n => n + length (List.filter
                                (fun p => point_in_circle (pt_lat p) (pt_lon p) c) pts))
         <$> circle_removed_counts cnt !! i).

(** The documents of the examples. *)
Definition two_tracks : gpx :=
  [ [Seg [mk_trkpt 0 0 [] []]]; [Seg [mk_trkpt 1 1 [] []]] ].

Definition rect_unit : rect := (0, 0, 1, 1)%R.

Definition emptied_and_kept : gpx :=
  [ [Other (XElem "name" [] "home" []); Seg [mk_trkpt (1 / 2) (1 / 2) [] []]];
    [Seg [mk_trkpt 5 5 [] []]] ].

(** A run with three rectangles and a track of two segments that lie in
    no rectangle: the points of the first segment are far from all of
    them; of the second segment, the first point is far from all of them
    and the other two are within 111111 m of the first two rectangles. *)
Definition near_rects : list rect :=
  [rect_unit; (2, 0, 3, 1)%R; (10, 10, 11, 11)%R].

Definition far_seg : trkseg := [mk_trkpt 20 20 [] []].

Definition near_seg : trkseg :=
  [mk_trkpt 5 (1 / 2) [] []; mk_trkpt (3 / 2) (1 / 2) [] [];
   mk_trkpt (8 / 5) (1 / 2) [] []].

Definition near_doc : gpx := [[Seg far_seg; Seg near_seg]].

(** The lengths that the second pass records for a region among the
    segments [segs]: those of the segments that are at most
    [max_stray_length] long and pass the test [near] of the region. *)
Definition recorded_lengths (max_stray_length : R) (near : trkseg -> bool)
    (segs : list trkseg) : list R :=
  map seg_length
    (List.filter
       (fun s => bool_decide (seg_length s <= max_stray_length)%R && near s) segs).

(** The arguments of a run with two positional file names. *)
Definition args_positional_only : cli_args :=
  mk_cli_args (Some "in.gpx"%string) (Some "out.gpx"%string) None None None None
    false 10 None false false.

(** * Properties *)

(** ** Geometry *)

Section GeoMathFacts.
Local Open Scope R_scope.

Lemma radians_0 : radians 0 = 0.
Proof. unfold radians. lra. Qed.

Lemma atan_nonneg (x : R) : 0 <= x -> 0 <= atan x.
Proof.
  intros [Hx | <-].
  - left. rewrite <- atan_0. by apply atan_increasing.
  - rewrite atan_0. lra.
Qed.

Lemma atan2_0_pos (x : R) : 0 < x -> atan2 0 x = 0.
Proof.
  intros Hx. unfold atan2. rewrite decide_True by done.
  replace (0 / x) with 0 by (unfold Rdiv; lra). apply atan_0.
Qed.

Lemma atan2_nonneg (y x : R) : 0 <= y -> 0 <= x -> 0 <= atan2 y x.
Proof.
  intros Hy Hx. unfold atan2.
  destruct (decide (0 < x)) as [Hpos | Hnpos].
  - apply atan_nonneg. unfold Rdiv. apply Rmult_le_pos; [done |].
    left. by apply Rinv_0_lt_compat.
  - rewrite decide_False by lra.
    destruct (decide (0 < y)); [pose proof PI_RGT_0; lra |].
    rewrite decide_False by lra. lra.
Qed.

(** The distance of a point to itself: every term of [a] vanishes, and
    the only division of [haversine] is by the constant 2. *)
Lemma haversine_same (lat lon : R) : haversine lat lon lat lon = 0.
Proof.
  unfold haversine. cbv zeta.
  replace (lat - lat) with 0 by lra. replace (lon - lon) with 0 by lra.
  rewrite radians_0. replace (0 / 2) with 0 by lra. rewrite sin_0.
  replace (0 ^ 2 + cos (radians lat) * cos (radians lat) * 0 ^ 2) with 0 by lra.
  rewrite sqrt_0, Rminus_0_r, sqrt_1, atan2_0_pos by lra. lra.
Qed.

(** The number [a] of [haversine] lies in [[0, 1]]: both square roots of
    line 16 are taken of non-negative numbers. *)
Lemma haversine_sqrt_arguments (lat1 lon1 lat2 lon2 : R) :
  let a := sin (radians (lat2 - lat1) / 2) ^ 2
           + cos (radians lat1) * cos (radians lat2)
             * sin (radians (lon2 - lon1) / 2) ^ 2 in
  0 <= a /\ 0 <= 1 - a.
Proof.
  cbv zeta.
  set (x := radians (lat2 - lat1) / 2). set (y := radians (lon2 - lon1) / 2).
  set (p1 := radians lat1). set (p2 := radians lat2).
  assert (Hx : p2 - p1 = 2 * x) by (unfold x, p1, p2, radians; lra).
  pose proof (cos_minus p2 p1) as Hm. pose proof (cos_plus p2 p1) as Hp.
  rewrite Hx, cos_2a_sin in Hm.
  pose proof (COS_bound (p2 + p1)) as [Hb1 Hb2].
  pose proof (sin2_cos2 x) as Hsx. pose proof (sin2_cos2 y) as Hsy.
  pose proof (Rle_0_sqr (sin x)) as H1. pose proof (Rle_0_sqr (cos x)) as H2.
  pose proof (Rle_0_sqr (sin y)) as H3. pose proof (Rle_0_sqr (cos y)) as H4.
  unfold Rsqr in *.
  set (s := sin x) in *. set (t := sin y) in *.
  set (c1 := cos p1) in *. set (c2 := cos p2) in *.
  assert (Hc : - (s * s) <= c1 * c2 <= 1 - s * s) by lra.
  simpl. rewrite !Rmult_1_r.
  assert (0 <= t * t <= 1) by lra. assert (0 <= s * s <= 1) by lra.
  split; nra.
Qed.

Lemma haversine_nonneg (lat1 lon1 lat2 lon2 : R) :
  0 <= haversine lat1 lon1 lat2 lon2.
Proof.
  unfold haversine. cbv zeta.
  apply Rmult_le_pos; [lra |]. apply Rmult_le_pos; [lra |].
  apply atan2_nonneg; apply sqrt_pos.
Qed.

Lemma point_in_rect_spec (lat lon lat1 lon1 lat2 lon2 : R) :
  point_in_rect lat lon (lat1, lon1, lat2, lon2) = true <->
  (Rmin lat1 lat2 <= lat <= Rmax lat1 lat2) /\
  (Rmin lon1 lon2 <= lon <= Rmax lon1 lon2).
Proof.
  unfold point_in_rect.
  rewrite !andb_true_iff, !bool_decide_eq_true. tauto.
Qed.

Lemma point_in_circle_spec (lat lon center_lat center_lon radius : R) :
  point_in_circle lat lon (center_lat, center_lon, radius) = true <->
  haversine lat lon center_lat center_lon <= radius.
Proof. unfold point_in_circle. apply bool_decide_eq_true. Qed.

Lemma Rmin_le_Rmax (x y : R) : Rmin x y <= Rmax x y.
Proof. unfold Rmin, Rmax. destruct (Rle_dec x y); lra. Qed.

(** C6. The containment tests are inclusive of the boundary: a point on an
    edge of a rectangle is in the rectangle, a point whose distance to the
    centre of a circle equals the radius is in the circle, the distance of
    a point to itself is 0, and a circle of radius 0 contains its centre. *)
Theorem containment_boundary_inclusive
    (lat lon : R) (rc : rect) (center_lat center_lon radius : R) :
  (on_rect_edge lat lon rc -> point_in_rect lat lon rc = true)
  /\ (haversine lat lon center_lat center_lon = radius ->
      point_in_circle lat lon (center_lat, center_lon, radius) = true)
  /\ haversine lat lon lat lon = 0
  /\ point_in_circle lat lon (lat, lon, 0) = true.
Proof.
  repeat split.
  - destruct rc as [[[lat1 lon1] lat2] lon2]. intros Hedge.
    apply point_in_rect_spec.
    pose proof (Rmin_le_Rmax lat1 lat2). pose proof (Rmin_le_Rmax lon1 lon2).
    unfold on_rect_edge in Hedge.
    destruct Hedge as [[[-> | ->] ?] | [[-> | ->] ?]]; lra.
  - intros Hd. apply point_in_circle_spec. lra.
  - apply haversine_same.
  - apply point_in_circle_spec. rewrite haversine_same. lra.
Qed.

Lemma containment_boundary_inclusive_witness :
  point_in_rect 0 (1 / 2) (0, 0, 1, 1) = true
  /\ point_in_circle 10 10 (10, 10, haversine 10 10 10 10) = true.
Proof.
  split.
  - apply (containment_boundary_inclusive 0 (1 / 2) (0, 0, 1, 1) 0 0 0).
    unfold on_rect_edge. left. unfold Rmin, Rmax.
    destruct (Rle_dec 0 1); lra.
  - by apply (containment_boundary_inclusive 10 10 (0, 0, 1, 1) 10 10
                (haversine 10 10 10 10)).
Defined.

(** The default vicinity of a rectangle of zero area is 0. *)
Lemma default_vicinity_degenerate (lat1 lon1 lat2 lon2 : R) :
  lat1 = lat2 \/ lon1 = lon2 -> default_vicinity (lat1, lon1, lat2, lon2) = 0.
Proof.
  intros Hdeg. unfold default_vicinity.
  assert (Hmin : forall w h, 0 <= w -> 0 <= h -> w = 0 \/ h = 0 -> Rmin w h / 2 = 0).
  { intros w h Hw Hh [-> | ->]; unfold Rmin; destruct (Rle_dec _ _); lra. }
  apply Hmin; [apply haversine_nonneg | apply haversine_nonneg |].
  destruct Hdeg as [<- | <-].
  - right. rewrite (Rmin_left lat1 lat1), (Rmax_left lat1 lat1) by lra.
    apply haversine_same.
  - left. rewrite (Rmin_left lon1 lon1), (Rmax_left lon1 lon1) by lra.
    apply haversine_same.
Qed.

(** C10. For a rectangle whose corners share a latitude or a longitude the
    default vicinity is 0, and without an override the expanded-rectangle
    test is the strict rectangle test on every point. *)
Theorem degenerate_rect_default_vicinity (lat1 lon1 lat2 lon2 : R) :
  lat1 = lat2 \/ lon1 = lon2 ->
  default_vicinity (lat1, lon1, lat2, lon2) = 0
  /\ forall lat lon,
       point_in_expanded_rectangle lat lon (lat1, lon1, lat2, lon2) None
       = point_in_rect lat lon (lat1, lon1, lat2, lon2).
Proof.
  intros Hdeg. pose proof (default_vicinity_degenerate _ _ _ _ Hdeg) as Hv.
  split; [done |]. intros lat lon.
  unfold point_in_expanded_rectangle, point_in_rect. rewrite Hv.
  replace (0 / 111111) with 0 by lra.
  replace (0 / (111111 * cos (radians ((Rmin lat1 lat2 + Rmax lat1 lat2) / 2))))
    with 0 by (unfold Rdiv; lra).
  by rewrite !Rminus_0_r, !Rplus_0_r.
Qed.

Lemma degenerate_rect_default_vicinity_witness :
  default_vicinity (1, 2, 1, 3) = 0
  /\ point_in_expanded_rectangle 1 4 (1, 2, 1, 3) None
     = point_in_rect 1 4 (1, 2, 1, 3).
Proof.
  assert (H : 1 = 1 \/ 2 = 3) by (left; reflexivity).
  destruct (degenerate_rect_default_vicinity 1 2 1 3 H) as [Hv Hp].
  split; [exact Hv | exact (Hp 1 4)].
Defined.

End GeoMathFacts.

(** ** The counting loops of the first pass *)

Section MarkRegions.
Context {A : Type} (hit : A -> bool).

Local Abbreviation mark_regions := (mark_regions hit).

Lemma mark_regions_removed idx rs counts removed :
  (mark_regions idx rs counts removed).2 = removed || existsb hit rs.
Proof.
  revert idx counts removed.
  induction rs as [| r rs IH]; intros idx counts removed; simpl.
  - by rewrite orb_false_r.
  - destruct (hit r); rewrite IH; simpl; [by rewrite orb_true_r | done].
Qed.

Lemma mark_regions_length idx rs counts removed :
  length (mark_regions idx rs counts removed).1 = length counts.
Proof.
  revert idx counts removed.
  induction rs as [| r rs IH]; intros idx counts removed; simpl; [done |].
  destruct (hit r); rewrite IH; [apply length_alter | done].
Qed.

Lemma mark_regions_lookup_lt idx rs counts removed j :
  j < idx -> (mark_regions idx rs counts removed).1 !! j = counts !! j.
Proof.
  revert idx counts removed.
  induction rs as [| r rs IH]; intros idx counts removed Hj; simpl; [done |].
  destruct (hit r); rewrite IH by lia; [| done].
  apply list_lookup_alter_ne. lia.
Qed.

(** Every region is tested: the counter of each region that contains the
    point grows by one, the others are left as they were. *)
Lemma mark_regions_lookup idx rs counts removed k r :
  rs !! k = Some r ->
  (mark_regions idx rs counts removed).1 !! (idx + k)
  = if hit r then S <$> counts !! (idx + k) else counts !! (idx + k).
Proof.
  revert idx counts removed k.
  induction rs as [| r0 rs IH]; intros idx counts removed k Hk; [done |].
  destruct k as [| k]; simpl in Hk.
  - injection Hk as ->. rewrite Nat.add_0_r. simpl.
    destruct (hit r); rewrite mark_regions_lookup_lt by lia.
    + apply list_lookup_alter_eq.
    + done.
  - simpl.
    destruct (hit r0); replace (idx + S k) with (S idx + k) by lia;
      rewrite (IH _ _ _ _ Hk); [| done].
    rewrite list_lookup_alter_ne by lia. done.
Qed.

Lemma mark_regions_none idx rs counts removed :
  existsb hit rs = false -> mark_regions idx rs counts removed = (counts, removed).
Proof.
  revert idx. induction rs as [| r rs IH]; intros idx Hex; simpl in *; [done |].
  apply orb_false_iff in Hex as [-> Hex]. by apply IH.
Qed.

Lemma sum_list_alter_S (counts : list nat) (idx : nat) :
  idx < length counts -> sum_list (alter S idx counts) = S (sum_list counts).
Proof.
  revert idx. induction counts as [| c counts IH]; intros idx Hlt; simpl in Hlt.
  - lia.
  - destruct idx as [| idx]; [done |].
    change (c + sum_list (alter S idx counts) = S (c + sum_list counts)).
    rewrite IH by lia. lia.
Qed.

(** With a counter for every region, the counters grow in total by the
    number of regions that contain the point. *)
Lemma mark_regions_sum idx rs counts removed :
  idx + length rs <= length counts ->
  sum_list (mark_regions idx rs counts removed).1
  = sum_list counts + length (List.filter hit rs).
Proof.
  revert idx counts removed.
  induction rs as [| r rs IH]; intros idx counts removed Hlen; simpl in *.
  - lia.
  - destruct (hit r); simpl.
    + rewrite IH by (rewrite length_alter; lia).
      rewrite sum_list_alter_S by lia. lia.
    + apply IH. lia.
Qed.

End MarkRegions.

Section PassFacts.

Variable rects : list rect.
Variable circles : list circle.

Local Abbreviation point_removed := (point_removed rects circles).
Local Abbreviation regions_containing := (regions_containing rects circles).
Local Abbreviation run_decomposition := (run_decomposition rects circles).
Local Abbreviation split_inv := (split_inv rects circles).
Local Abbreviation clean_segment := (clean_segment rects circles).

Lemma mark_rects_regions lat lon idx rs counts removed :
  mark_rects lat lon idx rs counts removed
  = mark_regions (point_in_rect lat lon) idx rs counts removed.
Proof.
  revert idx counts removed.
  induction rs as [| rc rs IH]; intros; simpl; [done |]. by rewrite !IH.
Qed.

Lemma mark_circles_regions lat lon idx cs counts removed :
  mark_circles lat lon idx cs counts removed
  = mark_regions (point_in_circle lat lon) idx cs counts removed.
Proof.
  revert idx counts removed.
  induction cs as [| c cs IH]; intros; simpl; [done |]. by rewrite !IH.
Qed.

Lemma regions_containing_pos (p : trkpt) :
  1 <= regions_containing p <-> point_removed p = true.
Proof.
  unfold regions_containing, point_removed.
  assert (Hex : forall (B : Type) (f : B -> bool) (l : list B),
             1 <= length (List.filter f l) <-> existsb f l = true).
  { intros B f l. induction l as [| b l IH]; simpl.
    - split; [lia | done].
    - destruct (f b); simpl; [split; [done | lia] | done]. }
  rewrite orb_true_iff, <- !Hex. lia.
Qed.

(** [step_point] in terms of [point_removed]. *)
Lemma step_point_unfold (cnt : removal_stats) (sp : split_state) (p : trkpt) :
  step_point rects circles (cnt, sp) p =
  let rcounts :=
    (mark_regions (point_in_rect (pt_lat p) (pt_lon p)) 0 rects
       (rect_removed_counts cnt) false).1 in
  let ccounts :=
    (mark_regions (point_in_circle (pt_lat p) (pt_lon p)) 0 circles
       (circle_removed_counts cnt) false).1 in
  if point_removed p then
    (mk_removal_stats (S (total_points_removed cnt)) rcounts ccounts,
     match current_seg_points sp with
     | [] => sp
     | _ :: _ =>
         mk_split_state (segments_from_trkseg sp ++ [current_seg_points sp]) []
     end)
  else
    (mk_removal_stats (total_points_removed cnt) rcounts ccounts,
     mk_split_state (segments_from_trkseg sp) (current_seg_points sp ++ [p])).
Proof.
  unfold step_point, point_removed.
  rewrite mark_rects_regions.
  pose proof (mark_regions_removed (point_in_rect (pt_lat p) (pt_lon p))
                0 rects (rect_removed_counts cnt) false) as Hr.
  destruct (mark_regions (point_in_rect (pt_lat p) (pt_lon p)) 0 rects
              (rect_removed_counts cnt) false) as [rcounts r1] eqn:E1.
  simpl in Hr. subst r1.
  rewrite mark_circles_regions.
  pose proof (mark_regions_removed (point_in_circle (pt_lat p) (pt_lon p))
                0 circles (circle_removed_counts cnt)
                (existsb (point_in_rect (pt_lat p) (pt_lon p)) rects)) as Hc.
  pose proof (mark_regions_length (point_in_circle (pt_lat p) (pt_lon p))
                0 circles (circle_removed_counts cnt)) as _.
  assert (Hfst : forall b,
    (mark_regions (point_in_circle (pt_lat p) (pt_lon p)) 0 circles
       (circle_removed_counts cnt) b).1
    = (mark_regions (point_in_circle (pt_lat p) (pt_lon p)) 0 circles
         (circle_removed_counts cnt) false).1).
  { generalize (circle_removed_counts cnt), 0. clear.
    induction circles as [| c cs IH]; intros counts idx b; simpl; [done |].
    destruct (point_in_circle _ _ c); [done | apply IH]. }
  destruct (mark_regions (point_in_circle (pt_lat p) (pt_lon p)) 0 circles
              (circle_removed_counts cnt)
              (existsb (point_in_rect (pt_lat p) (pt_lon p)) rects))
    as [ccounts r2] eqn:E2.
  simpl in Hc. subst r2.
  specialize (Hfst (existsb (point_in_rect (pt_lat p) (pt_lon p)) rects)).
  rewrite E2 in Hfst. simpl in Hfst. cbv zeta. by rewrite <- Hfst.
Qed.

(** *** A removed point *)

(** C3. A point that lies in [k >= 1] regions: the counter of every region
    that contains it grows by one and no other counter changes (so the
    counters grow by [k] in total), the total grows by one, the point
    enters no run, the current run is closed as one segment if it is not
    empty and no segment is made otherwise, and the removed points that
    follow it make no segment at all. *)
Theorem removed_point_step (cnt : removal_stats) (sp : split_state) (p : trkpt) :
  1 <= regions_containing p ->
  let st' := step_point rects circles (cnt, sp) p in
  (forall i rc, rects !! i = Some rc ->
     rect_removed_counts st'.1 !! i
     = if point_in_rect (pt_lat p) (pt_lon p) rc
       then S <$> rect_removed_counts cnt !! i
       else rect_removed_counts cnt !! i)
  /\ (forall i c, circles !! i = Some c ->
       circle_removed_counts st'.1 !! i
       = if point_in_circle (pt_lat p) (pt_lon p) c
         then S <$> circle_removed_counts cnt !! i
         else circle_removed_counts cnt !! i)
  /\ (length (rect_removed_counts cnt) = length rects ->
      length (circle_removed_counts cnt) = length circles ->
      sum_list (rect_removed_counts st'.1) + sum_list (circle_removed_counts st'.1)
      = sum_list (rect_removed_counts cnt) + sum_list (circle_removed_counts cnt)
        + regions_containing p)
  /\ total_points_removed st'.1 = S (total_points_removed cnt)
  /\ current_seg_points st'.2 = []
  /\ segments_from_trkseg st'.2
     = segments_from_trkseg sp
       ++ match current_seg_points sp with
          | [] => []
          | _ :: _ => [current_seg_points sp]
          end
  /\ (forall run, Forall (fun q => 1 <= regions_containing q) run ->
      (foldl (step_point rects circles) st' run).2 = st'.2).
Proof.
  intros Hk st'. subst st'. rewrite step_point_unfold. cbv zeta.
  apply regions_containing_pos in Hk as Hrem. rewrite Hrem. simpl.
  split; [| split; [| split; [| split; [| split; [| split]]]]].
  - intros i rc Hi.
    apply (mark_regions_lookup (point_in_rect (pt_lat p) (pt_lon p)) 0 rects
             (rect_removed_counts cnt) false i rc Hi).
  - intros i c Hi.
    apply (mark_regions_lookup (point_in_circle (pt_lat p) (pt_lon p)) 0 circles
             (circle_removed_counts cnt) false i c Hi).
  - intros Hlr Hlc. rewrite !mark_regions_sum by (simpl; lia).
    unfold regions_containing. lia.
  - done.
  - by destruct (current_seg_points sp) eqn:E.
  - destruct (current_seg_points sp) eqn:E; simpl; [by rewrite app_nil_r | done].
  - intros run Hrun.
    set (cnt1 := mk_removal_stats _ _ _).
    assert (Hsp : current_seg_points
              (match current_seg_points sp with
               | [] => sp
               | _ :: _ =>
                   mk_split_state
                     (segments_from_trkseg sp ++ [current_seg_points sp]) []
               end) = []) by (by destruct (current_seg_points sp) eqn:E).
    revert Hsp. generalize cnt1.
    generalize (match current_seg_points sp with
                | [] => sp
                | _ :: _ =>
                    mk_split_state
                      (segments_from_trkseg sp ++ [current_seg_points sp]) []
                end).
    induction Hrun as [| q run Hq Hrun IH]; intros sp1 cnt2 Hcur; [done |].
    cbn [foldl]. rewrite step_point_unfold. cbv zeta.
    apply regions_containing_pos in Hq. rewrite Hq, Hcur.
    by rewrite IH.
Qed.

(** *** The runs of one segment *)

Lemma split_inv_step pre cnt sp runs gap p :
  split_inv pre sp runs gap ->
  exists runs' gap',
    split_inv (pre ++ [p]) (step_point rects circles (cnt, sp) p).2 runs' gap'.
Proof.
  intros ([Hsegs _ Hruns Hgap Hint] & Hpre & Hcur & Hlast).
  rewrite step_point_unfold. cbv zeta.
  destruct (point_removed p) eqn:Hp; simpl.
  - destruct (current_seg_points sp) as [| q cur] eqn:Ecur.
    + exists runs, (gap ++ [p]). split; [| split; [| split]].
      * split; auto. apply Forall_app; auto.
      * rewrite Ecur, Hpre. by rewrite !app_nil_r, app_assoc.
      * by rewrite Ecur.
      * intros _. by destruct gap.
    + exists (runs ++ [(gap, q :: cur)]), [p]. split; [| split; [| split]].
      * split; simpl.
        -- by rewrite fmap_app, Hsegs.
        -- done.
        -- apply Forall_app. split; [done |].
           apply Forall_singleton. by simpl.
        -- by apply Forall_singleton.
        -- intros i r Hi.
           destruct (decide (S i < length runs)) as [Hlt | Hge].
           ++ rewrite lookup_app_l in Hi by done. by eapply Hint.
           ++ rewrite lookup_app_r in Hi by lia.
              destruct (S i - length runs) eqn:E; [| done].
              injection Hi as <-. simpl. apply Hlast.
              intros ->. simpl in *. lia.
      * simpl. rewrite Hpre, map_app, concat_app. simpl.
        by rewrite !app_nil_r, <- !app_assoc.
      * done.
      * done.
  - exists runs, gap. split; [| split; [| split]].
    + by split.
    + rewrite Hpre. by rewrite <- !app_assoc.
    + apply Forall_app. auto.
    + done.
Qed.

Lemma split_inv_foldl pts pre cnt sp runs gap :
  split_inv pre sp runs gap ->
  exists runs' gap',
    split_inv (pre ++ pts) (foldl (step_point rects circles) (cnt, sp) pts).2
      runs' gap'.
Proof.
  revert pre cnt sp runs gap.
  induction pts as [| p pts IH]; intros pre cnt sp runs gap Hinv.
  - exists runs, gap. by rewrite app_nil_r.
  - cbn [foldl].
    destruct (split_inv_step pre cnt sp runs gap p Hinv) as (runs1 & gap1 & H1).
    destruct (step_point rects circles (cnt, sp) p) as [cnt1 sp1].
    destruct (IH _ cnt1 sp1 _ _ H1) as (runs2 & gap2 & H2).
    exists runs2, gap2. by rewrite <- app_assoc in H2.
Qed.

(** The loop over a segment ends with a decomposition of the segment. *)
Lemma split_trkseg_decomposition (cnt : removal_stats) (pts : trkseg) :
  exists runs tail,
    run_decomposition pts (split_trkseg rects circles cnt pts).2 runs tail.
Proof.
  unfold split_trkseg.
  assert (H0 : split_inv [] (mk_split_state [] []) [] []).
  { split; [| done]. split; simpl; try done. }
  destruct (split_inv_foldl pts [] cnt _ _ _ H0) as (runs & gap & Hinv).
  destruct (foldl _ _ pts) as [cnt' sp]. simpl in *.
  destruct Hinv as ([Hsegs _ Hruns Hgap Hint] & Hpre & Hcur & Hlast).
  unfold close_run.
  destruct (current_seg_points sp) as [| q cur] eqn:Ecur.
  - exists runs, gap. split; auto. by rewrite Hpre, app_nil_r.
  - exists (runs ++ [(gap, q :: cur)]), []. split; simpl.
    + by rewrite fmap_app, Hsegs.
    + rewrite Hpre, map_app, concat_app. simpl.
      by rewrite !app_nil_r.
    + apply Forall_app. split; [done |].
      apply Forall_singleton. by simpl.
    + done.
    + intros i r Hi.
      destruct (decide (S i < length runs)) as [Hlt | Hge].
      * rewrite lookup_app_l in Hi by done. by eapply Hint.
      * rewrite lookup_app_r in Hi by lia.
        destruct (S i - length runs) eqn:E; [| done].
        injection Hi as <-. simpl. apply Hlast.
        intros ->. simpl in *. lia.
Qed.

Lemma run_decomposition_sublist pts segs runs tail :
  run_decomposition pts segs runs tail -> concat segs `sublist_of` pts.
Proof.
  intros [-> -> _ _ _]. apply sublist_inserts_r.
  induction runs as [| [g s] runs IH]; simpl; [done |].
  rewrite <- app_assoc. apply sublist_inserts_l. by apply sublist_app.
Qed.

(** C2. The segments made from one original segment, with the removed
    points put back between them, are the original points in order: the
    original segment is a first gap, then each new segment followed by
    the gap after it; the new segments are not empty and hold retained
    points only, the gaps hold removed points only, and every gap between
    two new segments is not empty, so each new segment is a maximal run
    of consecutive retained points. *)
Theorem split_trkseg_runs (cnt : removal_stats) (pts : trkseg) :
  exists runs tail,
    run_decomposition pts (split_trkseg rects circles cnt pts).2 runs tail
    /\ concat (split_trkseg rects circles cnt pts).2 `sublist_of` pts.
Proof.
  destruct (split_trkseg_decomposition cnt pts) as (runs & tail & Hrd).
  exists runs, tail. split; [exact Hrd |].
  by eapply run_decomposition_sublist.
Qed.

(** *** What the first pass makes *)

Lemma run_decomposition_clean pts segs runs tail :
  run_decomposition pts segs runs tail -> Forall clean_segment segs.
Proof.
  intros [-> _ Hruns _ _]. apply Forall_fmap.
  eapply Forall_impl; [exact Hruns |]. intros r (_ & ? & ?). by split.
Qed.

Lemma sublist_Forall {B : Type} (P : B -> Prop) (l1 l2 : list B) :
  l1 `sublist_of` l2 -> Forall P l2 -> Forall P l1.
Proof.
  intros Hsub Hall. apply Forall_forall. intros x Hx.
  eapply Forall_forall; [exact Hall |]. by eapply elem_of_sublist.
Qed.

Lemma sublist_concat {B : Type} (l1 l2 : list (list B)) :
  l1 `sublist_of` l2 -> concat l1 `sublist_of` concat l2.
Proof.
  induction 1 as [| x l1 l2 _ IH | x l1 l2 _ IH]; simpl.
  - done.
  - by apply sublist_app.
  - by apply sublist_inserts_l.
Qed.

Lemma first_pass_trkseg_spec (cnt : removal_stats) (ns : list trkseg) (pts : trkseg) :
  exists l,
    (first_pass_trkseg rects circles (cnt, ns) pts).2 = ns ++ l
    /\ concat l `sublist_of` pts /\ Forall clean_segment l.
Proof.
  unfold first_pass_trkseg.
  destruct (split_trkseg_decomposition cnt pts) as (runs & tail & Hrd).
  destruct (split_trkseg rects circles cnt pts) as [cnt' segs]. simpl in *.
  exists segs. split; [done |]. split.
  - by eapply run_decomposition_sublist.
  - by eapply run_decomposition_clean.
Qed.

Lemma first_pass_trksegs_spec (cnt : removal_stats) (ns : list trkseg)
    (segs : list trkseg) :
  exists l,
    (foldl (first_pass_trkseg rects circles) (cnt, ns) segs).2 = ns ++ l
    /\ concat l `sublist_of` concat segs /\ Forall clean_segment l.
Proof.
  revert cnt ns. induction segs as [| pts segs IH]; intros cnt ns.
  - exists []. by rewrite app_nil_r.
  - cbn [foldl].
    destruct (first_pass_trkseg_spec cnt ns pts) as (l1 & E1 & Hs1 & Hc1).
    destruct (first_pass_trkseg rects circles (cnt, ns) pts) as [cnt1 ns1].
    simpl in E1. subst ns1.
    destruct (IH cnt1 (ns ++ l1)) as (l2 & E2 & Hs2 & Hc2).
    exists (l1 ++ l2). rewrite E2, <- app_assoc. split; [done |]. split.
    + rewrite concat_app. simpl. by apply sublist_app.
    + by apply Forall_app.
Qed.

Lemma first_pass_from_spec (cnt : removal_stats) (ns : list trkseg) (doc : gpx) :
  exists l,
    (foldl (first_pass_trk rects circles) (cnt, ns) doc).2 = ns ++ l
    /\ concat l `sublist_of` points_of_gpx doc /\ Forall clean_segment l.
Proof.
  revert cnt ns. induction doc as [| t doc IH]; intros cnt ns.
  - exists []. by rewrite app_nil_r.
  - cbn [foldl]. unfold first_pass_trk at 2.
    destruct (first_pass_trksegs_spec cnt ns (trksegs t)) as (l1 & E1 & Hs1 & Hc1).
    destruct (foldl (first_pass_trkseg rects circles) (cnt, ns) (trksegs t))
      as [cnt1 ns1].
    simpl in E1. subst ns1.
    destruct (IH cnt1 (ns ++ l1)) as (l2 & E2 & Hs2 & Hc2).
    exists (l1 ++ l2). rewrite E2, <- app_assoc. split; [done |]. split.
    + rewrite concat_app. unfold points_of_gpx. simpl. by apply sublist_app.
    + by apply Forall_app.
Qed.

(** The segments of the first pass are not empty, hold retained points
    only, and their points are points of the document, in its order. *)
Lemma first_pass_segments (doc : gpx) :
  concat (first_pass rects circles doc).2 `sublist_of` points_of_gpx doc
  /\ Forall clean_segment (first_pass rects circles doc).2.
Proof.
  unfold first_pass.
  destruct (first_pass_from_spec (init_removal_stats rects circles) [] doc)
    as (l & E & Hs & Hc).
  rewrite E. by simpl.
Qed.

(** *** The first pass on segments that hold no removed point *)

Lemma step_point_retained (cnt : removal_stats) (sp : split_state) (p : trkpt) :
  point_removed p = false ->
  step_point rects circles (cnt, sp) p
  = (cnt, mk_split_state (segments_from_trkseg sp) (current_seg_points sp ++ [p])).
Proof.
  intros Hp. rewrite step_point_unfold. cbv zeta. rewrite Hp.
  unfold point_removed in Hp. apply orb_false_iff in Hp as [Hr Hc].
  rewrite !mark_regions_none by done. by destruct cnt.
Qed.

Lemma foldl_step_point_retained (cnt : removal_stats) (sp : split_state)
    (pts : list trkpt) :
  Forall (fun p => point_removed p = false) pts ->
  foldl (step_point rects circles) (cnt, sp) pts
  = (cnt, mk_split_state (segments_from_trkseg sp) (current_seg_points sp ++ pts)).
Proof.
  intros Hpts. revert sp.
  induction Hpts as [| p pts Hp _ IH]; intros sp; cbn [foldl].
  - rewrite app_nil_r. by destruct sp.
  - rewrite step_point_retained by done. rewrite IH. simpl.
    by rewrite <- app_assoc.
Qed.

(** A clean segment goes through the first pass as it is, and no counter
    moves. *)
Lemma split_trkseg_clean (cnt : removal_stats) (s : trkseg) :
  clean_segment s -> split_trkseg rects circles cnt s = (cnt, [s]).
Proof.
  intros [Hne Hret]. unfold split_trkseg.
  rewrite foldl_step_point_retained by done. unfold close_run. simpl.
  by destruct s.
Qed.

Lemma first_pass_trksegs_clean (cnt : removal_stats) (ns : list trkseg)
    (segs : list trkseg) :
  Forall clean_segment segs ->
  foldl (first_pass_trkseg rects circles) (cnt, ns) segs = (cnt, ns ++ segs).
Proof.
  intros Hsegs. revert ns.
  induction Hsegs as [| s segs Hs _ IH]; intros ns; cbn [foldl].
  - by rewrite app_nil_r.
  - unfold first_pass_trkseg at 2. rewrite split_trkseg_clean by done.
    rewrite IH. by rewrite <- app_assoc.
Qed.

Lemma first_pass_from_clean (cnt : removal_stats) (ns : list trkseg) (doc : gpx) :
  Forall (fun t => Forall clean_segment (trksegs t)) doc ->
  foldl (first_pass_trk rects circles) (cnt, ns) doc
  = (cnt, ns ++ concat (map trksegs doc)).
Proof.
  intros Hdoc. revert ns.
  induction Hdoc as [| t doc Ht _ IH]; intros ns; cbn [foldl].
  - by rewrite app_nil_r.
  - unfold first_pass_trk at 2. rewrite first_pass_trksegs_clean by done.
    rewrite IH. simpl. by rewrite <- app_assoc.
Qed.

End PassFacts.

(** ** The rebuilt document *)

Lemma trksegs_remove_trksegs (t : trk) : trksegs (remove_trksegs t) = [].
Proof. induction t as [| [s | e] t IH]; simpl; done. Qed.

Lemma remove_trksegs_idemp (t : trk) :
  remove_trksegs (remove_trksegs t) = remove_trksegs t.
Proof.
  induction t as [| [s | e] t IH]; simpl; [done | done |].
  f_equal. exact IH.
Qed.

Lemma trksegs_map_Seg (l : list trkseg) : trksegs (map Seg l) = l.
Proof.
  induction l as [| s l IH]; [done |].
  change (s :: trksegs (map Seg l) = s :: l). by rewrite IH.
Qed.

Lemma trksegs_update_trk (final_segments : list trkseg) (t : trk) :
  trksegs (update_trk final_segments (remove_trksegs t)) = final_segments.
Proof.
  unfold update_trk. rewrite remove_trksegs_idemp.
  unfold trksegs. rewrite omap_app.
  fold (trksegs (remove_trksegs t)). fold (trksegs (map Seg final_segments)).
  by rewrite trksegs_remove_trksegs, trksegs_map_Seg.
Qed.

Lemma keep_not_stray_sublist (idx : nat) (segs : list trkseg) (stray : gset nat) :
  keep_not_stray idx segs stray `sublist_of` segs.
Proof.
  revert idx. induction segs as [| s segs IH]; intros idx; simpl; [done |].
  destruct (decide (idx ∈ stray)); [by apply sublist_cons | by apply sublist_skip].
Qed.

Section RebuildFacts.

Variable rects : list rect.
Variable circles : list circle.
Variable max_stray_length : R.
Variable max_stray_vicinity : option R.

Lemma third_pass_sublist (remove_stray : bool) (segs : list trkseg)
    (stray : gset nat) :
  third_pass remove_stray segs stray `sublist_of` segs.
Proof.
  unfold third_pass. destruct remove_stray; [apply keep_not_stray_sublist | done].
Qed.

Lemma process_out_doc (remove_stray : bool) (doc : gpx) :
  let out := process_gpx_with_stats rects circles max_stray_length remove_stray
               max_stray_vicinity doc in
  out_doc out
  = map (fun t => remove_trksegs t ++ map Seg (out_final_segments out)) doc
  /\ out_final_segments out `sublist_of` (first_pass rects circles doc).2
  /\ out_removed out = (first_pass rects circles doc).1
  /\ out_new_segments out = (first_pass rects circles doc).2.
Proof.
  unfold process_gpx_with_stats.
  destruct (first_pass rects circles doc) as [cnt new_segments]. simpl.
  split; [| split; [apply third_pass_sublist | done]].
  rewrite map_map. apply map_ext. intros t. unfold update_trk.
  by rewrite remove_trksegs_idemp.
Qed.

(** The third pass gives every track the whole of [final_segments]: the
    tracks of the output are the tracks of the input, in order, each with
    its other children as they were and with the same list of segments. *)
Lemma every_track_gets_final_segments (remove_stray : bool) (doc : gpx) :
  let out := process_gpx_with_stats rects circles max_stray_length remove_stray
               max_stray_vicinity doc in
  length (out_doc out) = length doc
  /\ map remove_trksegs (out_doc out) = map remove_trksegs doc
  /\ Forall (fun t' => trksegs t' = out_final_segments out) (out_doc out).
Proof.
  intros out. destruct (process_out_doc remove_stray doc) as (Hdoc & _).
  fold out in Hdoc. rewrite Hdoc. split; [apply length_map |]. split.
  - rewrite map_map. apply map_ext. intros t.
    unfold remove_trksegs. rewrite List.filter_app.
    fold (remove_trksegs t). fold (remove_trksegs (remove_trksegs t)).
    rewrite remove_trksegs_idemp.
    assert (Hnone : forall l, List.filter (fun c => negb (is_trkseg c)) (map Seg l) = []).
    { intros l. induction l as [| s l IH]; simpl; done. }
    by rewrite Hnone, app_nil_r.
  - apply Forall_map. apply Forall_forall. intros t _. simpl.
    rewrite <- (remove_trksegs_idemp t). apply trksegs_update_trk.
Qed.

(** C9. In the output every track holds points of the input document
    only, as they were (same latitude, longitude, attributes and children)
    and in the order of the input, and none of them lies in a region. *)
Theorem retained_points_unchanged (remove_stray : bool) (doc : gpx) :
  Forall (fun t' =>
            points_of_trk t' `sublist_of` points_of_gpx doc
            /\ Forall (fun p => point_removed rects circles p = false)
                 (points_of_trk t'))
    (out_doc (process_gpx_with_stats rects circles max_stray_length remove_stray
                max_stray_vicinity doc)).
Proof.
  destruct (every_track_gets_final_segments remove_stray doc) as (_ & _ & Hall).
  destruct (process_out_doc remove_stray doc) as (_ & Hsub & _).
  destruct (first_pass_segments rects circles doc) as (Hpts & Hclean).
  eapply Forall_impl; [exact Hall |]. intros t' Ht'. simpl in Ht'.
  unfold points_of_trk. rewrite Ht'. split.
  - etrans; [apply sublist_concat, Hsub | exact Hpts].
  - apply Forall_concat. eapply Forall_impl.
    + eapply sublist_Forall; [exact Hsub | exact Hclean].
    + by intros s [_ Hs].
Qed.

(** C8. Without stray removal, a second run on the output of a first run,
    with the same regions, removes no point: its total and every region
    counter are 0, and the segments after its first pass are the segments
    of its input as they were. *)
Theorem strict_removal_idempotent (doc : gpx) :
  let out1 := process_gpx_with_stats rects circles max_stray_length false
                max_stray_vicinity doc in
  let out2 := process_gpx_with_stats rects circles max_stray_length false
                max_stray_vicinity (out_doc out1) in
  total_points_removed (out_removed out2) = 0
  /\ rect_removed_counts (out_removed out2) = replicate (length rects) 0
  /\ circle_removed_counts (out_removed out2) = replicate (length circles) 0
  /\ out_new_segments out2 = concat (map trksegs (out_doc out1)).
Proof.
  intros out1 out2.
  destruct (every_track_gets_final_segments false doc) as (_ & _ & Hall).
  destruct (process_out_doc false doc) as (_ & Hsub & _).
  destruct (first_pass_segments rects circles doc) as (_ & Hclean).
  fold out1 in Hall, Hsub.
  assert (Hdoc : Forall (fun t => Forall (clean_segment rects circles) (trksegs t))
                   (out_doc out1)).
  { eapply Forall_impl; [exact Hall |]. intros t' Ht'. simpl in Ht'.
    rewrite Ht'. eapply sublist_Forall; [exact Hsub | exact Hclean]. }
  destruct (process_out_doc false (out_doc out1)) as (_ & _ & Hrem & Hnew).
  fold out2 in Hrem, Hnew. rewrite Hrem, Hnew. unfold first_pass.
  rewrite (first_pass_from_clean rects circles _ _ _ Hdoc). by simpl.
Qed.

End RebuildFacts.

(** ** Stray classification *)

Lemma add_legs_path_length (prev_pt : trkpt) (pts : list trkpt) (acc : R) :
  add_legs prev_pt pts acc = (acc + path_length (prev_pt :: pts))%R.
Proof.
  revert prev_pt acc. induction pts as [| pt pts IH]; intros prev_pt acc.
  - simpl. lra.
  - cbn [add_legs]. rewrite IH.
    change (path_length (prev_pt :: pt :: pts))
      with (haversine (pt_lat prev_pt) (pt_lon prev_pt) (pt_lat pt) (pt_lon pt)
            + path_length (pt :: pts))%R.
    lra.
Qed.

Lemma seg_length_path_length (pts : trkseg) : seg_length pts = path_length pts.
Proof.
  unfold seg_length. destruct pts as [| p [| q pts]].
  - by rewrite decide_True by (simpl; lia).
  - by rewrite decide_True by (simpl; lia).
  - rewrite decide_False by (simpl; lia).
    rewrite add_legs_path_length. lra.
Qed.

Section StrayFacts.

Variable rects : list rect.
Variable circles : list circle.
Variable max_stray_length : R.
Variable max_stray_vicinity : option R.

Local Abbreviation near_rect := (near_rect max_stray_vicinity).
Local Abbreviation near_circle := (near_circle max_stray_vicinity).
Local Abbreviation near_some_region :=
  (near_some_region rects circles max_stray_vicinity).

Lemma scan_rect_spec rc i seg_idx len pts st :
  scan_rect max_stray_vicinity rc i seg_idx len pts st
  = if near_rect pts rc then record_rect i seg_idx len st else st.
Proof.
  unfold near_rect. induction pts as [| pt pts IH]; simpl; [done |].
  by destruct (point_in_expanded_rectangle _ _ rc _).
Qed.

Lemma scan_circle_spec c i seg_idx len pts st :
  scan_circle max_stray_vicinity c i seg_idx len pts st
  = if near_circle pts c then record_circle i seg_idx len st else st.
Proof.
  unfold near_circle. induction pts as [| pt pts IH]; simpl; [done |].
  by destruct (point_in_circle_vicinity _ _ c _).
Qed.

(** The scan for one region ends at the first point in its zone: the
    points after it change nothing. *)
Lemma scan_rect_first_match rc i seg_idx len pre p post st :
  Forall (fun pt => point_in_expanded_rectangle (pt_lat pt) (pt_lon pt) rc
                      max_stray_vicinity = false) pre ->
  point_in_expanded_rectangle (pt_lat p) (pt_lon p) rc max_stray_vicinity = true ->
  scan_rect max_stray_vicinity rc i seg_idx len (pre ++ p :: post) st
  = record_rect i seg_idx len st.
Proof.
  intros Hpre Hp. induction Hpre as [| q pre Hq _ IH]; simpl.
  - by rewrite Hp.
  - by rewrite Hq.
Qed.

Lemma scan_circle_first_match c i seg_idx len pre p post st :
  Forall (fun pt => point_in_circle_vicinity (pt_lat pt) (pt_lon pt) c
                      max_stray_vicinity = false) pre ->
  point_in_circle_vicinity (pt_lat p) (pt_lon p) c max_stray_vicinity = true ->
  scan_circle max_stray_vicinity c i seg_idx len (pre ++ p :: post) st
  = record_circle i seg_idx len st.
Proof.
  intros Hpre Hp. induction Hpre as [| q pre Hq _ IH]; simpl.
  - by rewrite Hp.
  - by rewrite Hq.
Qed.

(** The loop over the rectangles: every rectangle is scanned. *)
Lemma scan_rects_spec i rs seg_idx len pts st :
  let st' := scan_rects max_stray_vicinity i rs seg_idx len pts st in
  global_stray_indices st'
  = (if existsb (near_rect pts) rs then {[seg_idx]} ∪ global_stray_indices st
     else global_stray_indices st)
  /\ stray_circle st' = stray_circle st
  /\ (forall j, j < i -> stray_rect st' !! j = stray_rect st !! j)
  /\ (forall k rc, rs !! k = Some rc ->
       stray_rect st' !! (i + k)
       = if near_rect pts rc
         then (fun l => l ++ [len]) <$> stray_rect st !! (i + k)
         else stray_rect st !! (i + k)).
Proof.
  revert i st. induction rs as [| rc0 rs IH]; intros i st; cbn [scan_rects].
  - simpl. repeat split; done.
  - specialize (IH (S i) (scan_rect max_stray_vicinity rc0 i seg_idx len pts st)).
    cbv zeta in *. destruct IH as (Hg & Hc & Hlt & Hk).
    rewrite scan_rect_spec in Hg, Hc, Hlt, Hk. rewrite !scan_rect_spec.
    cbn [existsb].
    split; [| split; [| split]].
    + rewrite Hg. destruct (near_rect pts rc0), (existsb (near_rect pts) rs);
        simpl; try done. by rewrite (assoc_L (∪)), union_idemp_L.
    + rewrite Hc. by destruct (near_rect pts rc0).
    + intros j Hj. rewrite Hlt by lia.
      destruct (near_rect pts rc0); [| done].
      simpl. apply list_lookup_alter_ne. lia.
    + intros k rc Hrc. destruct k as [| k]; simpl in Hrc.
      * injection Hrc as ->. rewrite Nat.add_0_r, Hlt by lia.
        destruct (near_rect pts rc); [| done].
        simpl. apply list_lookup_alter_eq.
      * replace (i + S k) with (S i + k) by lia. rewrite (Hk _ _ Hrc).
        destruct (near_rect pts rc0); [| done].
        simpl. by rewrite list_lookup_alter_ne by lia.
Qed.

Lemma scan_circles_spec i cs seg_idx len pts st :
  let st' := scan_circles max_stray_vicinity i cs seg_idx len pts st in
  global_stray_indices st'
  = (if existsb (near_circle pts) cs then {[seg_idx]} ∪ global_stray_indices st
     else global_stray_indices st)
  /\ stray_rect st' = stray_rect st
  /\ (forall j, j < i -> stray_circle st' !! j = stray_circle st !! j)
  /\ (forall k c, cs !! k = Some c ->
       stray_circle st' !! (i + k)
       = if near_circle pts c
         then (fun l => l ++ [len]) <$> stray_circle st !! (i + k)
         else stray_circle st !! (i + k)).
Proof.
  revert i st. induction cs as [| c0 cs IH]; intros i st; cbn [scan_circles].
  - simpl. repeat split; done.
  - specialize (IH (S i) (scan_circle max_stray_vicinity c0 i seg_idx len pts st)).
    cbv zeta in *. destruct IH as (Hg & Hc & Hlt & Hk).
    rewrite scan_circle_spec in Hg, Hc, Hlt, Hk. rewrite !scan_circle_spec.
    cbn [existsb].
    split; [| split; [| split]].
    + rewrite Hg. destruct (near_circle pts c0), (existsb (near_circle pts) cs);
        simpl; try done. by rewrite (assoc_L (∪)), union_idemp_L.
    + rewrite Hc. by destruct (near_circle pts c0).
    + intros j Hj. rewrite Hlt by lia.
      destruct (near_circle pts c0); [| done].
      simpl. apply list_lookup_alter_ne. lia.
    + intros k c Hcir. destruct k as [| k]; simpl in Hcir.
      * injection Hcir as ->. rewrite Nat.add_0_r, Hlt by lia.
        destruct (near_circle pts c); [| done].
        simpl. apply list_lookup_alter_eq.
      * replace (i + S k) with (S i + k) by lia. rewrite (Hk _ _ Hcir).
        destruct (near_circle pts c0); [| done].
        simpl. by rewrite list_lookup_alter_ne by lia.
Qed.

Local Abbreviation classify :=
  (classify_segment rects circles max_stray_length max_stray_vicinity).

Lemma classify_segment_short seg_idx pts st :
  (seg_length pts <= max_stray_length)%R ->
  let st' := classify seg_idx pts st in
  (forall i rc, rects !! i = Some rc ->
     stray_rect st' !! i
     = if near_rect pts rc
       then (fun l => l ++ [seg_length pts]) <$> stray_rect st !! i
       else stray_rect st !! i)
  /\ (forall i c, circles !! i = Some c ->
       stray_circle st' !! i
       = if near_circle pts c
         then (fun l => l ++ [seg_length pts]) <$> stray_circle st !! i
         else stray_circle st !! i)
  /\ global_stray_indices st'
     = if near_some_region pts then {[seg_idx]} ∪ global_stray_indices st
       else global_stray_indices st.
Proof.
  intros Hlen. unfold classify_segment. rewrite decide_True by done. cbv zeta.
  destruct (scan_rects_spec 0 rects seg_idx (seg_length pts) pts st)
    as (Hg1 & Hc1 & _ & Hk1).
  destruct (scan_circles_spec 0 circles seg_idx (seg_length pts) pts
              (scan_rects max_stray_vicinity 0 rects seg_idx (seg_length pts) pts st))
    as (Hg2 & Hr2 & _ & Hk2).
  split; [| split].
  - intros i rc Hi. rewrite Hr2. apply (Hk1 i rc Hi).
  - intros i c Hi. specialize (Hk2 i c Hi). change (0 + i) with i in Hk2.
    by rewrite Hk2, Hc1.
  - rewrite Hg2, Hg1. unfold near_some_region.
    destruct (existsb (near_rect pts) rects), (existsb (near_circle pts) circles);
      simpl; try done.
    by rewrite (assoc_L (∪)), union_idemp_L.
Qed.

Lemma classify_segment_long seg_idx pts st :
  (max_stray_length < seg_length pts)%R -> classify seg_idx pts st = st.
Proof.
  intros Hlen. unfold classify_segment. by rewrite decide_False by lra.
Qed.

(** One call of the body of the loop on a segment that is short enough:
    for every region, its length is appended once to the list of that
    region if some point of the segment is in the expanded zone of the
    region, the first such point ends the scan for that region, and the
    index of the segment is added to the set of stray indices once. *)
Lemma classify_segment_effect (seg_idx : nat) (pts : trkseg) (st : stray_stats) :
  (seg_length pts <= max_stray_length)%R ->
  let st' := classify seg_idx pts st in
  let len := seg_length pts in
  (forall i rc, rects !! i = Some rc ->
     stray_rect st' !! i
     = if near_rect pts rc then (fun l => l ++ [len]) <$> stray_rect st !! i
       else stray_rect st !! i)
  /\ (forall i c, circles !! i = Some c ->
       stray_circle st' !! i
       = if near_circle pts c then (fun l => l ++ [len]) <$> stray_circle st !! i
         else stray_circle st !! i)
  /\ (forall rc i pre p post st0,
       pts = pre ++ p :: post ->
       Forall (fun pt => point_in_expanded_rectangle (pt_lat pt) (pt_lon pt) rc
                           max_stray_vicinity = false) pre ->
       point_in_expanded_rectangle (pt_lat p) (pt_lon p) rc max_stray_vicinity
       = true ->
       scan_rect max_stray_vicinity rc i seg_idx len pts st0
       = record_rect i seg_idx len st0
       /\ scan_rect max_stray_vicinity rc i seg_idx len (pre ++ [p]) st0
          = record_rect i seg_idx len st0)
  /\ (forall c i pre p post st0,
       pts = pre ++ p :: post ->
       Forall (fun pt => point_in_circle_vicinity (pt_lat pt) (pt_lon pt) c
                           max_stray_vicinity = false) pre ->
       point_in_circle_vicinity (pt_lat p) (pt_lon p) c max_stray_vicinity = true ->
       scan_circle max_stray_vicinity c i seg_idx len pts st0
       = record_circle i seg_idx len st0
       /\ scan_circle max_stray_vicinity c i seg_idx len (pre ++ [p]) st0
          = record_circle i seg_idx len st0)
  /\ global_stray_indices st'
     = (if near_some_region pts then {[seg_idx]} ∪ global_stray_indices st
        else global_stray_indices st)
  /\ (seg_idx ∉ global_stray_indices st ->
      size (global_stray_indices st')
      = if near_some_region pts then S (size (global_stray_indices st))
        else size (global_stray_indices st)).
Proof.
  intros Hlen st' len.
  destruct (classify_segment_short seg_idx pts st Hlen) as (Hr & Hc & Hg).
  fold st' in Hr, Hc, Hg. fold len in Hr, Hc.
  split; [exact Hr |]. split; [exact Hc |]. split; [| split; [| split]].
  - intros rc i pre p post st0 -> Hpre Hp.
    split; by apply scan_rect_first_match.
  - intros c i pre p post st0 -> Hpre Hp.
    split; by apply scan_circle_first_match.
  - exact Hg.
  - intros Hfresh. rewrite Hg. destruct (near_some_region pts); [| done].
    rewrite size_union by set_solver. by rewrite size_singleton.
Qed.

(** One call of the body of the loop and the bound on the length. *)
Lemma classify_segment_threshold (seg_idx : nat) (pts : trkseg) (st : stray_stats) :
  seg_length pts = path_length pts
  /\ ((max_stray_length < seg_length pts)%R -> classify seg_idx pts st = st)
  /\ (seg_length pts = max_stray_length -> near_some_region pts = true ->
      seg_idx ∈ global_stray_indices (classify seg_idx pts st))
  /\ (seg_idx ∉ global_stray_indices st ->
      (seg_idx ∈ global_stray_indices (classify seg_idx pts st)
       <-> (seg_length pts <= max_stray_length)%R /\ near_some_region pts = true)).
Proof.
  split; [apply seg_length_path_length |].
  split; [apply classify_segment_long |]. split.
  - intros Heq Hnear.
    destruct (classify_segment_short seg_idx pts st) as (_ & _ & Hg); [lra |].
    rewrite Hg, Hnear. set_solver.
  - intros Hfresh. destruct (decide (seg_length pts <= max_stray_length)%R) as [Hle | Hgt].
    + destruct (classify_segment_short seg_idx pts st Hle) as (_ & _ & Hg).
      rewrite Hg. destruct (near_some_region pts).
      * split; [done | intros _; set_solver].
      * split; [done | by intros [_ ?]].
    + rewrite classify_segment_long by lra. split; [done | intros [? _]; lra].
Qed.

(** The second pass as a whole: the stray indices are the indices of the
    segments that are short enough and near a region. *)
Lemma classify_from_global (idx : nat) (segs : list trkseg) (st : stray_stats) (j : nat) :
  j ∈ global_stray_indices
        (classify_from rects circles max_stray_length max_stray_vicinity idx segs st)
  <-> j ∈ global_stray_indices st
      \/ exists k seg, j = idx + k /\ segs !! k = Some seg
                       /\ (seg_length seg <= max_stray_length)%R
                       /\ near_some_region seg = true.
Proof.
  revert idx st. induction segs as [| seg segs IH]; intros idx st; cbn [classify_from].
  - split; [by left | intros [? | (k & s & _ & ? & _)]; done].
  - rewrite IH. clear IH.
    assert (Hcl : j ∈ global_stray_indices (classify idx seg st)
              <-> j ∈ global_stray_indices st
                  \/ (j = idx /\ (seg_length seg <= max_stray_length)%R
                      /\ near_some_region seg = true)).
    { destruct (decide (seg_length seg <= max_stray_length)%R) as [Hle | Hgt].
      - destruct (classify_segment_short idx seg st Hle) as (_ & _ & Hg).
        rewrite Hg. destruct (near_some_region seg).
        + rewrite elem_of_union, elem_of_singleton. naive_solver.
        + naive_solver.
      - rewrite classify_segment_long by lra. split; [by left |].
        intros [? | (_ & ? & _)]; [done | lra]. }
    rewrite Hcl. split.
    + intros [[? | (-> & ? & ?)] | (k & s & -> & ? & ? & ?)].
      * by left.
      * right. exists 0, seg. by rewrite Nat.add_0_r.
      * right. exists (S k), s. split; [lia | done].
    + intros [? | (k & s & -> & Hk & ? & ?)]; [by left; left |].
      destruct k as [| k]; simpl in Hk.
      * injection Hk as ->. left. right. by rewrite Nat.add_0_r.
      * right. exists k, s. split; [lia | done].
Qed.

Lemma second_pass_stray_iff (segs : list trkseg) (idx : nat) :
  idx ∈ global_stray_indices
          (second_pass rects circles max_stray_length max_stray_vicinity segs)
  <-> exists seg, segs !! idx = Some seg
                  /\ (seg_length seg <= max_stray_length)%R
                  /\ near_some_region seg = true.
Proof.
  unfold second_pass. rewrite classify_from_global. simpl. split.
  - intros [? | (k & seg & -> & ?)]; [set_solver | by exists seg].
  - intros (seg & ?). right. by exists idx, seg.
Qed.

End StrayFacts.

(** ** The segment list as a function of the original segments *)

Section SegmentsOf.

Variable rects : list rect.
Variable circles : list circle.

Local Abbreviation segments_of := (segments_of rects circles).

Lemma foldl_step_point_counters (cnt cnt' : removal_stats) (sp : split_state)
    (pts : list trkpt) :
  (foldl (step_point rects circles) (cnt, sp) pts).2
  = (foldl (step_point rects circles) (cnt', sp) pts).2.
Proof.
  revert cnt cnt' sp. induction pts as [| p pts IH]; intros cnt cnt' sp; [done |].
  cbn [foldl]. rewrite !step_point_unfold. cbv zeta.
  destruct (point_removed rects circles p); apply IH.
Qed.

(** The counters do not decide how a segment is split. *)
Lemma split_trkseg_segments_of (cnt : removal_stats) (pts : trkseg) :
  (split_trkseg rects circles cnt pts).2 = segments_of pts.
Proof.
  unfold segments_of, split_trkseg.
  pose proof (foldl_step_point_counters cnt (init_removal_stats rects circles)
                (mk_split_state [] []) pts) as H.
  destruct (foldl _ (cnt, _) pts) as [c1 sp1].
  destruct (foldl _ (init_removal_stats rects circles, _) pts) as [c2 sp2].
  simpl in *. by subst.
Qed.

Lemma first_pass_trksegs_segments_of (cnt : removal_stats) (ns : list trkseg)
    (segs : list trkseg) :
  (foldl (first_pass_trkseg rects circles) (cnt, ns) segs).2
  = ns ++ concat (map segments_of segs).
Proof.
  revert cnt ns. induction segs as [| pts segs IH]; intros cnt ns; cbn [foldl].
  - simpl. by rewrite app_nil_r.
  - unfold first_pass_trkseg at 2.
    pose proof (split_trkseg_segments_of cnt pts) as H.
    destruct (split_trkseg rects circles cnt pts) as [cnt1 l1]. simpl in H.
    subst l1. rewrite IH. simpl. by rewrite <- app_assoc.
Qed.

Lemma first_pass_from_segments_of (cnt : removal_stats) (ns : list trkseg) (doc : gpx) :
  (foldl (first_pass_trk rects circles) (cnt, ns) doc).2
  = ns ++ concat (map segments_of (concat (map trksegs doc))).
Proof.
  revert cnt ns. induction doc as [| t doc IH]; intros cnt ns; cbn [foldl].
  - simpl. by rewrite app_nil_r.
  - unfold first_pass_trk at 2.
    pose proof (first_pass_trksegs_segments_of cnt ns (trksegs t)) as H.
    destruct (foldl (first_pass_trkseg rects circles) (cnt, ns) (trksegs t))
      as [cnt1 ns1].
    simpl in H. subst ns1. rewrite IH. simpl.
    by rewrite map_app, concat_app, <- app_assoc.
Qed.

(** [new_segments] is one flat list for the whole document: the segments
    made from every original segment of every track, in document order. *)
Lemma first_pass_segments_of (doc : gpx) :
  (first_pass rects circles doc).2
  = concat (map segments_of (concat (map trksegs doc))).
Proof. unfold first_pass. by rewrite first_pass_from_segments_of. Qed.

(** A segment of removed points only leaves no segment. *)
Lemma segments_of_all_removed (pts : trkseg) :
  Forall (fun p => point_removed rects circles p = true) pts ->
  segments_of pts = [].
Proof.
  intros Hpts. unfold segments_of, split_trkseg.
  generalize (init_removal_stats rects circles).
  assert (H : forall cnt,
    (foldl (step_point rects circles) (cnt, mk_split_state [] []) pts).2
    = mk_split_state [] []).
  { induction Hpts as [| p pts Hp _ IH]; intros cnt; cbn [foldl]; [done |].
    rewrite step_point_unfold. cbv zeta. rewrite Hp. simpl. apply IH. }
  intros cnt. specialize (H cnt).
  destruct (foldl _ _ pts) as [cnt' sp]. simpl in H. by subst sp.
Qed.

Lemma segments_of_clean (s : trkseg) :
  clean_segment rects circles s -> segments_of s = [s].
Proof. intros Hs. unfold segments_of. by rewrite split_trkseg_clean. Qed.

(** Without stray removal the output holds, in every track, the segments
    made from all the tracks. *)
Lemma process_keep_stray_out_doc (max_stray_length : R)
    (max_stray_vicinity : option R) (doc : gpx) :
  out_doc (process_gpx_with_stats rects circles max_stray_length false
             max_stray_vicinity doc)
  = map (fun t => remove_trksegs t
                  ++ map Seg (concat (map segments_of (concat (map trksegs doc)))))
      doc.
Proof.
  destruct (process_out_doc rects circles max_stray_length max_stray_vicinity
              false doc) as (Hdoc & _).
  rewrite Hdoc. rewrite <- first_pass_segments_of.
  unfold process_gpx_with_stats.
  by destruct (first_pass rects circles doc) as [cnt new_segments].
Qed.

End SegmentsOf.

(** ** Documents with more than one track *)

(** Closed comparisons of the examples. *)
Ltac rect_test :=
  unfold point_in_rect;
  first
    [ rewrite !andb_true_iff, !bool_decide_eq_true; unfold Rmin, Rmax;
      repeat destruct (Rle_dec _ _); lra
    | apply not_true_is_false; rewrite !andb_true_iff, !bool_decide_eq_true;
      unfold Rmin, Rmax; repeat destruct (Rle_dec _ _); lra ].

(** C1, on a document of two tracks of one point each and no region: both
    tracks of the output hold both segments, so the first track receives
    the segment made from the second track, and the second track the one
    made from the first. *)
Theorem two_tracks_share_all_segments :
  out_doc (process_gpx_with_stats [] [] 10 false None two_tracks)
  = [ [Seg [mk_trkpt 0 0 [] []]; Seg [mk_trkpt 1 1 [] []]];
      [Seg [mk_trkpt 0 0 [] []]; Seg [mk_trkpt 1 1 [] []]] ]
  /\ mk_trkpt 1 1 [] [] ∉ points_of_trk [Seg [mk_trkpt 0 0 [] []]].
Proof.
  split.
  - rewrite process_keep_stray_out_doc. reflexivity.
  - unfold points_of_trk. simpl. rewrite list_elem_of_singleton.
    intros H. injection H as H _. lra.
Qed.

(** C7, on a document whose first track has its only point in the
    rectangle and whose second track has its only point outside: the two
    tracks are still there, in order, but the first one, all of whose
    points were removed, is not empty: it holds the segment of the second
    track. *)
Theorem emptied_track_is_refilled :
  out_doc (process_gpx_with_stats [rect_unit] [] 10 false None emptied_and_kept)
  = [ [Other (XElem "name" [] "home" []); Seg [mk_trkpt 5 5 [] []]];
      [Seg [mk_trkpt 5 5 [] []]] ]
  /\ segments_of [rect_unit] [] [mk_trkpt (1 / 2) (1 / 2) [] []] = [].
Proof.
  assert (Hin : point_removed [rect_unit] [] (mk_trkpt (1 / 2) (1 / 2) [] []) = true).
  { unfold point_removed, rect_unit. simpl. rewrite !orb_false_r. rect_test. }
  assert (Hout : point_removed [rect_unit] [] (mk_trkpt 5 5 [] []) = false).
  { unfold point_removed, rect_unit. simpl. rewrite !orb_false_r. rect_test. }
  assert (Hnil : segments_of [rect_unit] [] [mk_trkpt (1 / 2) (1 / 2) [] []] = []).
  { apply segments_of_all_removed. by apply Forall_singleton. }
  split; [| exact Hnil].
  assert (Hkept : segments_of [rect_unit] [] [mk_trkpt 5 5 [] []]
                  = [[mk_trkpt 5 5 [] []]]).
  { apply segments_of_clean. split; [done | by apply Forall_singleton]. }
  rewrite process_keep_stray_out_doc. unfold emptied_and_kept.
  remember (segments_of [rect_unit] []) as f eqn:Ef. simpl.
  by rewrite Hnil, Hkept.
Qed.

(** ** The rebuilt tracks *)

(** X1. The tracks of the output are the tracks of the input, in number and
    order, each with its children other than segments as they were; every
    one of them holds the same segments, the whole of [final_segments],
    which without stray removal are the segments made from all the tracks
    of the document. *)
Theorem tracks_kept_and_given_all_segments
    (rects : list rect) (circles : list circle) (max_stray_length : R)
    (remove_stray : bool) (max_stray_vicinity : option R) (doc : gpx) :
  let out := process_gpx_with_stats rects circles max_stray_length remove_stray
               max_stray_vicinity doc in
  length (out_doc out) = length doc
  /\ map remove_trksegs (out_doc out) = map remove_trksegs doc
  /\ Forall (fun t' => trksegs t' = out_final_segments out) (out_doc out)
  /\ (remove_stray = false ->
      out_final_segments out
      = concat (map (segments_of rects circles) (concat (map trksegs doc)))).
Proof.
  intros out.
  destruct (every_track_gets_final_segments rects circles max_stray_length
              max_stray_vicinity remove_stray doc) as (Hlen & Hother & Hall).
  fold out in Hlen, Hother, Hall.
  split; [done |]. split; [done |]. split; [done |].
  intros ->. rewrite <- first_pass_segments_of.
  subst out. unfold process_gpx_with_stats.
  by destruct (first_pass rects circles doc) as [cnt new_segments].
Qed.

Lemma tracks_kept_and_given_all_segments_witness :
  out_final_segments (process_gpx_with_stats [] [] 10 false None two_tracks)
  = concat (map (segments_of [] []) (concat (map trksegs two_tracks))).
Proof.
  destruct (tracks_kept_and_given_all_segments [] [] 10 false None two_tracks)
    as (_ & _ & _ & H).
  exact (H eq_refl).
Defined.

(** X2. The stray indices of the second pass are the indices of the segments
    whose length is at most [max_stray_length] and that have a point in
    the expanded zone of some region. *)
Theorem stray_indices_characterised
    (rects : list rect) (circles : list circle) (max_stray_length : R)
    (max_stray_vicinity : option R) (new_segments : list trkseg) (idx : nat) :
  idx ∈ global_stray_indices
          (second_pass rects circles max_stray_length max_stray_vicinity new_segments)
  <-> exists seg, new_segments !! idx = Some seg
                  /\ (seg_length seg <= max_stray_length)%R
                  /\ near_some_region rects circles max_stray_vicinity seg = true.
Proof. apply second_pass_stray_iff. Qed.

(** ** Instances *)

Lemma seg_length_single (p : trkpt) : seg_length [p] = 0%R.
Proof. unfold seg_length. by rewrite decide_True by (simpl; lia). Qed.

Lemma removed_point_step_witness :
  let cnt := mk_removal_stats 0 [0] [] in
  let sp := mk_split_state [] [mk_trkpt 5 5 [] []] in
  let st' := step_point [rect_unit] [] (cnt, sp) (mk_trkpt (1 / 2) (1 / 2) [] []) in
  total_points_removed st'.1 = 1
  /\ current_seg_points st'.2 = []
  /\ segments_from_trkseg st'.2 = [[mk_trkpt 5 5 [] []]].
Proof.
  intros cnt sp st'.
  assert (H : 1 <= regions_containing [rect_unit] [] (mk_trkpt (1 / 2) (1 / 2) [] [])).
  { apply regions_containing_pos. unfold point_removed, rect_unit. simpl.
    rewrite !orb_false_r. rect_test. }
  destruct (removed_point_step [rect_unit] [] cnt sp _ H)
    as (_ & _ & _ & Ht & Hc & Hs & _).
  split; [exact Ht |]. split; [exact Hc | exact Hs].
Defined.

(** ** Further facts about the passes *)

(** X3. A segment of three points whose middle point only is removed becomes
    two segments of one point each. *)
Theorem interior_point_removed_splits_in_two
    (rects : list rect) (circles : list circle) (cnt : removal_stats)
    (a b c : trkpt) :
  point_removed rects circles a = false ->
  point_removed rects circles b = true ->
  point_removed rects circles c = false ->
  (split_trkseg rects circles cnt [a; b; c]).2 = [[a]; [c]]
  /\ total_points_removed (split_trkseg rects circles cnt [a; b; c]).1
     = S (total_points_removed cnt).
Proof.
  intros Ha Hb Hc. unfold split_trkseg. cbn [foldl].
  rewrite (step_point_retained _ _ _ _ a Ha). cbn [segments_from_trkseg current_seg_points app].
  rewrite step_point_unfold. cbv zeta. rewrite Hb.
  cbn [segments_from_trkseg current_seg_points app].
  rewrite (step_point_retained _ _ _ _ c Hc). by simpl.
Qed.

Lemma interior_point_removed_splits_in_two_witness :
  (split_trkseg [rect_unit] [] (init_removal_stats [rect_unit] [])
     [mk_trkpt 5 5 [] []; mk_trkpt (1 / 2) (1 / 2) [] []; mk_trkpt 7 7 [] []]).2
  = [[mk_trkpt 5 5 [] []]; [mk_trkpt 7 7 [] []]].
Proof.
  apply (interior_point_removed_splits_in_two [rect_unit] []
           (init_removal_stats [rect_unit] [])
           (mk_trkpt 5 5 [] []) (mk_trkpt (1 / 2) (1 / 2) [] []) (mk_trkpt 7 7 [] []));
    unfold point_removed, rect_unit; simpl; rewrite !orb_false_r; rect_test.
Defined.

(** X4. A segment all of whose points lie in regions leaves no segment, so
    the second pass never sees it. *)
Theorem removed_segment_leaves_nothing
    (rects : list rect) (circles : list circle) (cnt : removal_stats)
    (pts : trkseg) :
  Forall (fun p => point_removed rects circles p = true) pts ->
  (split_trkseg rects circles cnt pts).2 = [].
Proof.
  intros Hpts. rewrite split_trkseg_segments_of.
  by apply segments_of_all_removed.
Qed.

Lemma removed_segment_leaves_nothing_witness :
  (split_trkseg [rect_unit] [] (init_removal_stats [rect_unit] [])
     [mk_trkpt (1 / 2) (1 / 2) [] []]).2 = [].
Proof.
  apply (removed_segment_leaves_nothing [rect_unit] []).
  apply Forall_singleton.
  unfold point_removed, rect_unit; simpl; rewrite !orb_false_r; rect_test.
Defined.

(** X5. On a document of one track, without stray removal, the output of a
    run is a fixed point of the whole pipeline. *)
Theorem single_track_fixed_point
    (rects : list rect) (circles : list circle) (max_stray_length : R)
    (max_stray_vicinity : option R) (t : trk) :
  let run := fun doc =>
    out_doc (process_gpx_with_stats rects circles max_stray_length false
               max_stray_vicinity doc) in
  run (run [t]) = run [t].
Proof.
  intros run. subst run. cbv beta.
  rewrite !process_keep_stray_out_doc.
  set (segs := concat (map (segments_of rects circles) (concat (map trksegs [t])))).
  assert (Hclean : Forall (clean_segment rects circles) segs).
  { subst segs. rewrite <- first_pass_segments_of. apply first_pass_segments. }
  cbn [map]. f_equal.
  assert (Hsegs : trksegs (remove_trksegs t ++ map Seg segs) = segs).
  { unfold trksegs. rewrite omap_app.
    fold (trksegs (remove_trksegs t)). fold (trksegs (map Seg segs)).
    by rewrite trksegs_remove_trksegs, trksegs_map_Seg. }
  assert (Hother : remove_trksegs (remove_trksegs t ++ map Seg segs)
                   = remove_trksegs t).
  { unfold remove_trksegs. rewrite List.filter_app.
    fold (remove_trksegs t). fold (remove_trksegs (remove_trksegs t)).
    rewrite remove_trksegs_idemp.
    assert (Hnone : forall l,
              List.filter (fun c => negb (is_trkseg c)) (map Seg l) = []).
    { intros l. induction l as [| s l IH]; simpl; done. }
    by rewrite Hnone, app_nil_r. }
  rewrite Hother. f_equal. f_equal.
  cbn [concat]. rewrite app_nil_r, Hsegs.
  clear -Hclean. induction Hclean as [| s l Hs _ IH]; [done |].
  cbn [map concat]. rewrite (segments_of_clean _ _ _ Hs). by rewrite IH.
Qed.

(** On the document of two tracks the output of a second run is not the
    output of the first: every track then holds each segment twice. *)
Lemma second_run_duplicates_segments :
  let run := fun doc => out_doc (process_gpx_with_stats [] [] 10 false None doc) in
  map (fun t => length (trksegs t)) (run two_tracks) = [2; 2]
  /\ map (fun t => length (trksegs t)) (run (run two_tracks)) = [4; 4].
Proof.
  cbv zeta beta. rewrite !process_keep_stray_out_doc. split; reflexivity.
Qed.

(** ** The counters of the first pass *)

Lemma filter_all_false {B : Type} (f : B -> bool) (l : list B) :
  Forall (fun x => f x = false) l -> List.filter f l = [].
Proof. induction 1 as [| x l Hx _ IH]; simpl; [done |]. by rewrite Hx. Qed.

Lemma filter_all_true {B : Type} (f : B -> bool) (l : list B) :
  Forall (fun x => f x = true) l -> List.filter f l = l.
Proof. induction 1 as [| x l Hx _ IH]; simpl; [done |]. by rewrite Hx, IH. Qed.

Lemma filter_negb_length {B : Type} (f : B -> bool) (l : list B) :
  length l = length (List.filter f l) + length (List.filter (fun x => negb (f x)) l).
Proof.
  induction l as [| x l IH]; simpl; [done |].
  destruct (f x); simpl; lia.
Qed.

Lemma concat_concat_map {B C : Type} (f : B -> list (list C)) (l : list B) :
  concat (concat (map f l)) = concat (map (fun x => concat (f x)) l).
Proof.
  induction l as [| x l IH]; simpl; [done |]. by rewrite concat_app, IH.
Qed.

Lemma points_of_gpx_flat (doc : gpx) :
  points_of_gpx doc = concat (concat (map trksegs doc)).
Proof.
  unfold points_of_gpx, points_of_trk.
  induction doc as [| t doc IH]; simpl; [done |]. by rewrite concat_app, IH.
Qed.

Section CounterFacts.

Variable rects : list rect.
Variable circles : list circle.

Local Abbreviation point_removed := (point_removed rects circles).
Local Abbreviation counts_after := (counts_after rects circles).
Local Abbreviation segments_of := (segments_of rects circles).

Lemma counts_after_nil (cnt : removal_stats) : counts_after cnt [] cnt.
Proof.
  unfold counts_after. simpl. split; [lia |]. split; [done |]. split; [done |].
  split; intros i r _; destruct (_ !! i); simpl; f_equal; lia.
Qed.

Lemma counts_after_app (cnt1 cnt2 cnt3 : removal_stats) (pts1 pts2 : list trkpt) :
  counts_after cnt1 pts1 cnt2 -> counts_after cnt2 pts2 cnt3 ->
  counts_after cnt1 (pts1 ++ pts2) cnt3.
Proof.
  intros (Ht1 & Hlr1 & Hlc1 & Hr1 & Hc1) (Ht2 & Hlr2 & Hlc2 & Hr2 & Hc2).
  unfold counts_after. rewrite List.filter_app, length_app.
  split; [lia |]. split; [congruence |]. split; [congruence |].
  split.
  - intros i rc Hi. rewrite (Hr2 i rc Hi), (Hr1 i rc Hi).
    rewrite List.filter_app, length_app.
    destruct (rect_removed_counts cnt1 !! i); simpl; f_equal; lia.
  - intros i c Hi. rewrite (Hc2 i c Hi), (Hc1 i c Hi).
    rewrite List.filter_app, length_app.
    destruct (circle_removed_counts cnt1 !! i); simpl; f_equal; lia.
Qed.

Lemma counts_after_step (cnt : removal_stats) (sp : split_state) (p : trkpt) :
  counts_after cnt [p] (step_point rects circles (cnt, sp) p).1.
Proof.
  rewrite step_point_unfold. cbv zeta.
  assert (Hlook : forall (B : Type) (hit : B -> bool) (rs : list B)
                    (counts : list nat) i r,
             rs !! i = Some r ->
             (mark_regions hit 0 rs counts false).1 !! i
             = (fun n => n + length (if hit r then [p] else [])) <$> counts !! i).
  { intros B hit rs counts i r Hi.
    pose proof (mark_regions_lookup hit 0 rs counts false i r Hi) as H.
    change (0 + i) with i in H. rewrite H.
    destruct (hit r), (counts !! i); simpl; f_equal; lia. }
  unfold counts_after.
  destruct (point_removed p) eqn:Hp; cbn [fst total_points_removed
    rect_removed_counts circle_removed_counts List.filter]; rewrite Hp;
    (split; [simpl; lia |]); rewrite !mark_regions_length;
    (split; [done |]); (split; [done |]); split; intros i r Hi;
    by rewrite (Hlook _ _ _ _ i r Hi).
Qed.

Lemma counts_after_foldl (cnt : removal_stats) (sp : split_state) (pts : list trkpt) :
  counts_after cnt pts (foldl (step_point rects circles) (cnt, sp) pts).1.
Proof.
  revert cnt sp. induction pts as [| p pts IH]; intros cnt sp; cbn [foldl].
  - apply counts_after_nil.
  - pose proof (counts_after_step cnt sp p) as H1.
    destruct (step_point rects circles (cnt, sp) p) as [cnt1 sp1].
    change (p :: pts) with ([p] ++ pts).
    eapply counts_after_app; [exact H1 | apply IH].
Qed.

Lemma counts_after_split (cnt : removal_stats) (pts : trkseg) :
  counts_after cnt pts (split_trkseg rects circles cnt pts).1.
Proof.
  unfold split_trkseg.
  pose proof (counts_after_foldl cnt (mk_split_state [] []) pts) as H.
  by destruct (foldl _ _ pts) as [cnt' sp].
Qed.

Lemma counts_after_trksegs (cnt : removal_stats) (ns : list trkseg)
    (segs : list trkseg) :
  counts_after cnt (concat segs)
    (foldl (first_pass_trkseg rects circles) (cnt, ns) segs).1.
Proof.
  revert cnt ns. induction segs as [| pts segs IH]; intros cnt ns; cbn [foldl].
  - apply counts_after_nil.
  - unfold first_pass_trkseg at 2.
    pose proof (counts_after_split cnt pts) as H1.
    destruct (split_trkseg rects circles cnt pts) as [cnt1 l1].
    simpl concat. eapply counts_after_app; [exact H1 | apply IH].
Qed.

Lemma counts_after_doc (cnt : removal_stats) (ns : list trkseg) (doc : gpx) :
  counts_after cnt (points_of_gpx doc)
    (foldl (first_pass_trk rects circles) (cnt, ns) doc).1.
Proof.
  revert cnt ns. induction doc as [| t doc IH]; intros cnt ns; cbn [foldl].
  - apply counts_after_nil.
  - unfold first_pass_trk at 2.
    pose proof (counts_after_trksegs cnt ns (trksegs t)) as H1.
    destruct (foldl (first_pass_trkseg rects circles) (cnt, ns) (trksegs t))
      as [cnt1 ns1].
    change (points_of_gpx (t :: doc)) with (concat (trksegs t) ++ points_of_gpx doc).
    eapply counts_after_app; [exact H1 | apply IH].
Qed.

(** The counters of the first pass, read on the whole document. *)
Lemma first_pass_counts (doc : gpx) :
  let cnt := (first_pass rects circles doc).1 in
  let pts := points_of_gpx doc in
  total_points_removed cnt = length (List.filter point_removed pts)
  /\ rect_removed_counts cnt
     = map (fun rc => length (List.filter
                               (fun p => point_in_rect (pt_lat p) (pt_lon p) rc) pts))
         rects
  /\ circle_removed_counts cnt
     = map (fun c => length (List.filter
                              (fun p => point_in_circle (pt_lat p) (pt_lon p) c) pts))
         circles.
Proof.
  cbv zeta. unfold first_pass.
  destruct (counts_after_doc (init_removal_stats rects circles) [] doc)
    as (Ht & Hlr & Hlc & Hr & Hc).
  simpl in Ht, Hlr, Hlc. rewrite length_replicate in Hlr, Hlc.
  split; [exact Ht |]. split.
  - apply list_eq. intros i. rewrite list_lookup_fmap.
    destruct (rects !! i) as [rc |] eqn:Hi; simpl.
    + rewrite (Hr i rc Hi). simpl.
      rewrite lookup_replicate_2 by (by eapply lookup_lt_Some). done.
    + apply lookup_ge_None. rewrite Hlr. by apply lookup_ge_None.
  - apply list_eq. intros i. rewrite list_lookup_fmap.
    destruct (circles !! i) as [c |] eqn:Hi; simpl.
    + rewrite (Hc i c Hi). simpl.
      rewrite lookup_replicate_2 by (by eapply lookup_lt_Some). done.
    + apply lookup_ge_None. rewrite Hlc. by apply lookup_ge_None.
Qed.

(** The points of the new segments are the retained points of the
    document, in order. *)
Lemma segments_of_filter (pts : trkseg) :
  concat (segments_of pts) = List.filter (fun p => negb (point_removed p)) pts.
Proof.
  unfold segments_of.
  destruct (split_trkseg_decomposition rects circles
              (init_removal_stats rects circles) pts) as (runs & tail & Hrd).
  destruct Hrd as [-> Hpts Hruns Htail _]. rewrite Hpts. clear Hpts.
  rewrite List.filter_app.
  rewrite (filter_all_false _ tail), app_nil_r.
  2:{ eapply Forall_impl; [exact Htail |]. by intros p ->. }
  induction Hruns as [| [g s] runs (Hg & _ & Hs) _ IH]; [done |].
  rewrite fmap_cons, map_cons. cbn [concat fst snd].
  rewrite !List.filter_app, <- IH.
  rewrite (filter_all_false _ g), (filter_all_true _ s); [done | |].
  - eapply Forall_impl; [exact Hs |]. by intros p ->.
  - eapply Forall_impl; [exact Hg |]. by intros p ->.
Qed.

Lemma first_pass_points (doc : gpx) :
  concat (first_pass rects circles doc).2
  = List.filter (fun p => negb (point_removed p)) (points_of_gpx doc).
Proof.
  rewrite first_pass_segments_of, points_of_gpx_flat.
  etrans; [apply (concat_concat_map (C := trkpt) segments_of) |].
  rewrite <- concat_filter_map. f_equal. apply map_ext. intros pts.
  apply segments_of_filter.
Qed.

End CounterFacts.

Lemma sum_list_map_add {B : Type} (a b : B -> nat) (l : list B) :
  sum_list (map (fun x => a x + b x) l) = sum_list (map a l) + sum_list (map b l).
Proof. induction l as [| x l IH]; simpl; [done |]. rewrite IH. lia. Qed.

Lemma sum_list_indicator {B : Type} (f : B -> bool) (l : list B) :
  sum_list (map (fun x => if f x then 1 else 0) l) = length (List.filter f l).
Proof. induction l as [| x l IH]; simpl; [done |]. destruct (f x); simpl; lia. Qed.

(** Counting the pairs (point, region) by region or by point. *)
Lemma count_by_region_or_point {P B : Type} (hit : P -> B -> bool)
    (pts : list P) (rs : list B) :
  sum_list (map (fun r => length (List.filter (fun p => hit p r) pts)) rs)
  = sum_list (map (fun p => length (List.filter (hit p) rs)) pts).
Proof.
  induction pts as [| p pts IH]; simpl.
  - induction rs as [| r rs IHr]; simpl; [done | exact IHr].
  - rewrite <- IH, <- sum_list_indicator, <- sum_list_map_add.
    f_equal. apply map_ext. intros r. destruct (hit p r); simpl; lia.
Qed.

Section PipelineCounts.

Variable rects : list rect.
Variable circles : list circle.
Variable max_stray_length : R.
Variable remove_stray : bool.
Variable max_stray_vicinity : option R.

Local Abbreviation process :=
  (process_gpx_with_stats rects circles max_stray_length remove_stray
     max_stray_vicinity).

(** X6. What the counters count: the total is the number of points of the
    document that lie in some region, and the counter of each rectangle
    and of each circle is the number of points of the document in it. *)
Theorem removal_counts_meaning (doc : gpx) :
  let cnt := out_removed (process doc) in
  let pts := points_of_gpx doc in
  total_points_removed cnt
  = length (List.filter (point_removed rects circles) pts)
  /\ rect_removed_counts cnt
     = map (fun rc => length (List.filter
                               (fun p => point_in_rect (pt_lat p) (pt_lon p) rc) pts))
         rects
  /\ circle_removed_counts cnt
     = map (fun c => length (List.filter
                              (fun p => point_in_circle (pt_lat p) (pt_lon p) c) pts))
         circles.
Proof.
  cbv zeta.
  destruct (process_out_doc rects circles max_stray_length max_stray_vicinity
              remove_stray doc) as (_ & _ & -> & _).
  apply first_pass_counts.
Qed.

(** X7. No point is lost or made: the points of the new segments are the
    points of the document that lie in no region, in the order of the
    document, and the points of the document are as many as the removed
    ones and the kept ones together. *)
Theorem points_conserved (doc : gpx) :
  let out := process doc in
  concat (out_new_segments out)
  = List.filter (fun p => negb (point_removed rects circles p)) (points_of_gpx doc)
  /\ length (points_of_gpx doc)
     = total_points_removed (out_removed out) + length (concat (out_new_segments out)).
Proof.
  cbv zeta.
  destruct (process_out_doc rects circles max_stray_length max_stray_vicinity
              remove_stray doc) as (_ & _ & -> & ->).
  destruct (first_pass_counts rects circles doc) as (-> & _).
  rewrite first_pass_points. split; [done |]. apply filter_negb_length.
Qed.

(** X8. A point in several regions is counted once in the total and once for
    each region: the region counters add up to the number of pairs of a
    point of the document and a region that contains it, which the total
    never exceeds. *)
Theorem total_at_most_region_counts (doc : gpx) :
  let cnt := out_removed (process doc) in
  sum_list (rect_removed_counts cnt) + sum_list (circle_removed_counts cnt)
  = sum_list (map (regions_containing rects circles) (points_of_gpx doc))
  /\ total_points_removed cnt
     <= sum_list (rect_removed_counts cnt) + sum_list (circle_removed_counts cnt)
  /\ total_points_removed cnt <= length (points_of_gpx doc).
Proof.
  cbv zeta.
  destruct (process_out_doc rects circles max_stray_length max_stray_vicinity
              remove_stray doc) as (_ & _ & -> & _).
  destruct (first_pass_counts rects circles doc) as (-> & -> & ->).
  set (pts := points_of_gpx doc).
  assert (Hsum :
    sum_list (map (fun rc => length (List.filter
                     (fun p => point_in_rect (pt_lat p) (pt_lon p) rc) pts)) rects)
    + sum_list (map (fun c => length (List.filter
                       (fun p => point_in_circle (pt_lat p) (pt_lon p) c) pts)) circles)
    = sum_list (map (regions_containing rects circles) pts)).
  { rewrite (count_by_region_or_point
               (fun p rc => point_in_rect (pt_lat p) (pt_lon p) rc) pts rects).
    rewrite (count_by_region_or_point
               (fun p c => point_in_circle (pt_lat p) (pt_lon p) c) pts circles).
    by rewrite <- sum_list_map_add. }
  split; [exact Hsum |]. rewrite Hsum. split.
  - clear Hsum. induction pts as [| p pts IH]; simpl; [done |].
    destruct (point_removed rects circles p) eqn:Hp; simpl; [| lia].
    apply regions_containing_pos in Hp. lia.
  - clear Hsum. induction pts as [| p pts IH]; simpl; [done |].
    destruct (point_removed rects circles p); simpl; lia.
Qed.

(** X9. The output never holds an empty segment. *)
Theorem output_segments_not_empty (doc : gpx) :
  Forall (fun t' => Forall (fun s => s <> []) (trksegs t')) (out_doc (process doc)).
Proof.
  destruct (every_track_gets_final_segments rects circles max_stray_length
              max_stray_vicinity remove_stray doc) as (_ & _ & Hall).
  destruct (process_out_doc rects circles max_stray_length max_stray_vicinity
              remove_stray doc) as (_ & Hsub & _).
  destruct (first_pass_segments rects circles doc) as (_ & Hclean).
  eapply Forall_impl; [exact Hall |]. intros t' Ht'. simpl in Ht'. rewrite Ht'.
  eapply sublist_Forall; [exact Hsub |].
  eapply Forall_impl; [exact Hclean |]. by intros s [? _].
Qed.

End PipelineCounts.

(** ** The second and third pass on the whole document *)

Lemma path_length_nonneg (pts : list trkpt) : (0 <= path_length pts)%R.
Proof.
  induction pts as [| p [| q pts] IH]; simpl; try lra.
  pose proof (haversine_nonneg (pt_lat p) (pt_lon p) (pt_lat q) (pt_lon q)).
  simpl in IH. lra.
Qed.

Lemma seg_length_nonneg (pts : trkseg) : (0 <= seg_length pts)%R.
Proof. rewrite seg_length_path_length. apply path_length_nonneg. Qed.

Section StrayPipeline.

Variable rects : list rect.
Variable circles : list circle.
Variable max_stray_length : R.
Variable max_stray_vicinity : option R.

Local Abbreviation near_rect := (near_rect max_stray_vicinity).
Local Abbreviation near_circle := (near_circle max_stray_vicinity).
Local Abbreviation near_some_region :=
  (near_some_region rects circles max_stray_vicinity).
Local Abbreviation short_and_near :=
  (short_and_near rects circles max_stray_length max_stray_vicinity).
Local Abbreviation classify :=
  (classify_segment rects circles max_stray_length max_stray_vicinity).
Local Abbreviation classify_from :=
  (classify_from rects circles max_stray_length max_stray_vicinity).
Local Abbreviation short seg := (bool_decide (seg_length seg <= max_stray_length)%R).

Lemma classify_global (seg_idx : nat) (seg : trkseg) (st : stray_stats) :
  global_stray_indices (classify seg_idx seg st)
  = if short_and_near seg then {[seg_idx]} ∪ global_stray_indices st
    else global_stray_indices st.
Proof.
  unfold short_and_near.
  destruct (decide (seg_length seg <= max_stray_length)%R) as [Hle | Hgt].
  - rewrite bool_decide_eq_true_2 by done. simpl.
    by destruct (classify_segment_short rects circles max_stray_length
                   max_stray_vicinity seg_idx seg st Hle) as (_ & _ & ->).
  - rewrite bool_decide_eq_false_2 by done. simpl.
    by rewrite classify_segment_long by lra.
Qed.

Lemma scan_rects_lengths i rs seg_idx len pts st :
  length (stray_rect (scan_rects max_stray_vicinity i rs seg_idx len pts st))
  = length (stray_rect st).
Proof.
  revert i st. induction rs as [| rc rs IH]; intros i st; cbn [scan_rects]; [done |].
  rewrite IH, scan_rect_spec. destruct (near_rect pts rc); [| done].
  simpl. apply length_alter.
Qed.

Lemma scan_circles_lengths i cs seg_idx len pts st :
  length (stray_circle (scan_circles max_stray_vicinity i cs seg_idx len pts st))
  = length (stray_circle st).
Proof.
  revert i st. induction cs as [| c cs IH]; intros i st; cbn [scan_circles]; [done |].
  rewrite IH, scan_circle_spec. destruct (near_circle pts c); [| done].
  simpl. apply length_alter.
Qed.

Lemma classify_lengths (seg_idx : nat) (seg : trkseg) (st : stray_stats) :
  length (stray_rect (classify seg_idx seg st)) = length (stray_rect st)
  /\ length (stray_circle (classify seg_idx seg st)) = length (stray_circle st).
Proof.
  unfold classify_segment. destruct (decide _); [| done].
  destruct (scan_circles_spec max_stray_vicinity 0 circles seg_idx (seg_length seg) seg
              (scan_rects max_stray_vicinity 0 rects seg_idx (seg_length seg) seg st))
    as (_ & Hr & _).
  destruct (scan_rects_spec max_stray_vicinity 0 rects seg_idx (seg_length seg) seg st)
    as (_ & Hc & _).
  rewrite Hr, scan_rects_lengths, scan_circles_lengths, Hc. done.
Qed.

Lemma classify_rect_list (seg_idx : nat) (seg : trkseg) (st : stray_stats) i rc :
  rects !! i = Some rc ->
  stray_rect (classify seg_idx seg st) !! i
  = (fun l => l ++ map seg_length
                     (List.filter (fun s => short s && near_rect s rc) [seg]))
    <$> stray_rect st !! i.
Proof.
  intros Hi. cbn [List.filter].
  destruct (decide (seg_length seg <= max_stray_length)%R) as [Hle | Hgt].
  - rewrite bool_decide_eq_true_2 by done. simpl.
    destruct (classify_segment_short rects circles max_stray_length
                max_stray_vicinity seg_idx seg st Hle) as (Hr & _ & _).
    rewrite (Hr i rc Hi). destruct (near_rect seg rc); [done |].
    destruct (stray_rect st !! i); simpl; [| done]. by rewrite app_nil_r.
  - rewrite bool_decide_eq_false_2 by done. simpl.
    rewrite classify_segment_long by lra.
    destruct (stray_rect st !! i); simpl; [| done]. by rewrite app_nil_r.
Qed.

Lemma classify_circle_list (seg_idx : nat) (seg : trkseg) (st : stray_stats) i c :
  circles !! i = Some c ->
  stray_circle (classify seg_idx seg st) !! i
  = (fun l => l ++ map seg_length
                     (List.filter (fun s => short s && near_circle s c) [seg]))
    <$> stray_circle st !! i.
Proof.
  intros Hi. cbn [List.filter].
  destruct (decide (seg_length seg <= max_stray_length)%R) as [Hle | Hgt].
  - rewrite bool_decide_eq_true_2 by done. simpl.
    destruct (classify_segment_short rects circles max_stray_length
                max_stray_vicinity seg_idx seg st Hle) as (_ & Hc & _).
    rewrite (Hc i c Hi). destruct (near_circle seg c); [done |].
    destruct (stray_circle st !! i); simpl; [| done]. by rewrite app_nil_r.
  - rewrite bool_decide_eq_false_2 by done. simpl.
    rewrite classify_segment_long by lra.
    destruct (stray_circle st !! i); simpl; [| done]. by rewrite app_nil_r.
Qed.

Lemma classify_from_lists (idx : nat) (segs : list trkseg) (st : stray_stats) :
  let st' := classify_from idx segs st in
  length (stray_rect st') = length (stray_rect st)
  /\ length (stray_circle st') = length (stray_circle st)
  /\ (forall i rc, rects !! i = Some rc ->
       stray_rect st' !! i
       = (fun l => l ++ map seg_length
                          (List.filter (fun s => short s && near_rect s rc) segs))
         <$> stray_rect st !! i)
  /\ (forall i c, circles !! i = Some c ->
       stray_circle st' !! i
       = (fun l => l ++ map seg_length
                          (List.filter (fun s => short s && near_circle s c) segs))
         <$> stray_circle st !! i).
Proof.
  revert idx st. induction segs as [| seg segs IH]; intros idx st;
    cbn [classify_from].
  - simpl. split; [done |]. split; [done |].
    split; intros i r _; destruct (_ !! i); simpl; by rewrite ?app_nil_r.
  - destruct (IH (S idx) (classify idx seg st)) as (Hlr & Hlc & Hr & Hc).
    destruct (classify_lengths idx seg st) as (Hlr1 & Hlc1).
    cbv zeta in *. split; [congruence |]. split; [congruence |]. split.
    + intros i rc Hi. rewrite (Hr i rc Hi), (classify_rect_list _ _ _ _ _ Hi).
      change (seg :: segs) with ([seg] ++ segs).
      rewrite List.filter_app, map_app.
      destruct (stray_rect st !! i); simpl; [| done]. by rewrite <- app_assoc.
    + intros i c Hi. rewrite (Hc i c Hi), (classify_circle_list _ _ _ _ _ Hi).
      change (seg :: segs) with ([seg] ++ segs).
      rewrite List.filter_app, map_app.
      destruct (stray_circle st !! i); simpl; [| done]. by rewrite <- app_assoc.
Qed.

Lemma classify_from_size (idx : nat) (segs : list trkseg) (st : stray_stats) :
  (forall j, j ∈ global_stray_indices st -> j < idx) ->
  size (global_stray_indices (classify_from idx segs st))
  = size (global_stray_indices st) + length (List.filter short_and_near segs).
Proof.
  revert idx st. induction segs as [| seg segs IH]; intros idx st Hlt.
  - simpl. lia.
  - cbn [classify_from].
    rewrite IH.
    + rewrite classify_global. cbn [List.filter].
      destruct (short_and_near seg); [| done].
      rewrite size_union, size_singleton; [simpl; lia |].
      apply disjoint_singleton_l. intros Hin. apply Hlt in Hin. lia.
    + intros j. rewrite classify_global.
      destruct (short_and_near seg).
      * rewrite elem_of_union, elem_of_singleton.
        intros [-> | Hin]; [lia | apply Hlt in Hin; lia].
      * intros Hin. apply Hlt in Hin. lia.
Qed.

Lemma keep_not_stray_filter (idx : nat) (segs : list trkseg) (stray : gset nat) :
  (forall k seg, segs !! k = Some seg ->
     idx + k ∈ stray <-> short_and_near seg = true) ->
  keep_not_stray idx segs stray
  = List.filter (fun seg => negb (short_and_near seg)) segs.
Proof.
  revert idx. induction segs as [| seg segs IH]; intros idx H; simpl; [done |].
  pose proof (H 0 seg eq_refl) as H0. rewrite Nat.add_0_r in H0.
  rewrite IH.
  - destruct (decide (idx ∈ stray)) as [Hin | Hnin].
    + apply H0 in Hin. by rewrite Hin.
    + destruct (short_and_near seg) eqn:E; [| done].
      exfalso. apply Hnin. by apply H0.
  - intros k s Hk. rewrite <- (H (S k) s Hk). by replace (S idx + k) with (idx + S k) by lia.
Qed.

Lemma second_pass_short_and_near (segs : list trkseg) (k : nat) (seg : trkseg) :
  segs !! k = Some seg ->
  k ∈ global_stray_indices
        (second_pass rects circles max_stray_length max_stray_vicinity segs)
  <-> short_and_near seg = true.
Proof.
  intros Hk. rewrite second_pass_stray_iff.
  unfold short_and_near.
  rewrite andb_true_iff, bool_decide_eq_true. split.
  - intros (s & Hs & ?). rewrite Hk in Hs. by injection Hs as <-.
  - intros ?. by exists seg.
Qed.

End StrayPipeline.

(** ** Minimum and maximum *)

Lemma py_min_spec (x : R) (l : list R) :
  py_min x l ∈ x :: l /\ Forall (fun y => (py_min x l <= y)%R) (x :: l).
Proof.
  unfold py_min. revert x. induction l as [| y l IH]; intros x; cbn [foldl].
  - split; [by left |]. apply Forall_singleton. lra.
  - set (m := if decide (y < x)%R then y else x).
    destruct (IH m) as (Hin & Hall).
    apply Forall_cons in Hall as (Hm & Hl).
    assert (Hmx : (m <= x)%R) by (subst m; destruct (decide _); lra).
    assert (Hmy : (m <= y)%R) by (subst m; destruct (decide _); lra).
    split.
    + apply elem_of_cons in Hin as [-> | Hin].
      * subst m. destruct (decide _); [right; left | left].
      * by right; right.
    + repeat apply Forall_cons_2; [lra | lra | done].
Qed.

Lemma py_max_spec (x : R) (l : list R) :
  py_max x l ∈ x :: l /\ Forall (fun y => (y <= py_max x l)%R) (x :: l).
Proof.
  unfold py_max. revert x. induction l as [| y l IH]; intros x; cbn [foldl].
  - split; [by left |]. apply Forall_singleton. lra.
  - set (m := if decide (x < y)%R then y else x).
    destruct (IH m) as (Hin & Hall).
    apply Forall_cons in Hall as (Hm & Hl).
    assert (Hmx : (x <= m)%R) by (subst m; destruct (decide _); lra).
    assert (Hmy : (y <= m)%R) by (subst m; destruct (decide _); lra).
    split.
    + apply elem_of_cons in Hin as [-> | Hin].
      * subst m. destruct (decide _); [right; left | left].
      * by right; right.
    + repeat apply Forall_cons_2; [lra | lra | done].
Qed.

(** The statistics of a list of lengths that all lie in [[lo, hi]]. *)
Lemma report_lengths_min_max (lo hi : R) (lengths : list R) :
  Forall (fun y => (lo <= y <= hi)%R) lengths ->
  match report_lengths lengths with
  | NoStraySegments => lengths = []
  | StraySegments n mn mx _ =>
      n = length lengths /\ 0 < n /\ mn ∈ lengths /\ mx ∈ lengths
      /\ Forall (fun y => (mn <= y <= mx)%R) lengths
      /\ (lo <= mn)%R /\ (mn <= mx)%R /\ (mx <= hi)%R
  end.
Proof.
  intros Hall. destruct lengths as [| x l]; [done |]. cbn [report_lengths].
  destruct (py_min_spec x l) as (Hmin & Hmins).
  destruct (py_max_spec x l) as (Hmax & Hmaxs).
  pose proof (proj1 (Forall_forall _ _) Hall _ Hmin) as [? _].
  pose proof (proj1 (Forall_forall _ _) Hall _ Hmax) as [_ ?].
  pose proof (proj1 (Forall_forall _ _) Hmins _ Hmax).
  split; [done |]. split; [simpl; lia |]. split; [done |]. split; [done |].
  split; [| done].
  apply Forall_forall. intros y Hy. split.
  - by eapply (proj1 (Forall_forall _ _) Hmins).
  - by eapply (proj1 (Forall_forall _ _) Hmaxs).
Qed.

Section StrayTheorems.

Variable rects : list rect.
Variable circles : list circle.
Variable max_stray_length : R.
Variable max_stray_vicinity : option R.

Local Abbreviation short_and_near :=
  (short_and_near rects circles max_stray_length max_stray_vicinity).

(** X10. With stray removal, the segments written are the new segments that
    are not both at most [max_stray_length] long and near a region, in
    order; the number that the script logs as removed, the size of the
    set of stray indices, is the number of segments dropped. *)
Theorem stray_removal_drops_short_and_near (doc : gpx) :
  let out := process_gpx_with_stats rects circles max_stray_length true
               max_stray_vicinity doc in
  out_final_segments out
  = List.filter (fun seg => negb (short_and_near seg)) (out_new_segments out)
  /\ size (global_stray_indices (out_stray out))
     = length (List.filter short_and_near (out_new_segments out))
  /\ length (out_final_segments out) + size (global_stray_indices (out_stray out))
     = length (out_new_segments out).
Proof.
  cbv zeta. unfold process_gpx_with_stats.
  destruct (first_pass rects circles doc) as [cnt new_segments]. simpl.
  assert (Hfinal :
    keep_not_stray 0 new_segments
      (global_stray_indices
         (second_pass rects circles max_stray_length max_stray_vicinity new_segments))
    = List.filter (fun seg => negb (short_and_near seg)) new_segments).
  { apply keep_not_stray_filter. intros k seg Hk. simpl.
    by apply second_pass_short_and_near. }
  assert (Hsize :
    size (global_stray_indices
            (second_pass rects circles max_stray_length max_stray_vicinity new_segments))
    = length (List.filter short_and_near new_segments)).
  { unfold second_pass. rewrite classify_from_size.
    - unfold init_stray_stats. cbn [global_stray_indices].
      by rewrite size_empty.
    - unfold init_stray_stats. cbn [global_stray_indices].
      intros j Hj. by apply not_elem_of_empty in Hj. }
  rewrite Hfinal, Hsize. split; [done |]. split; [done |].
  rewrite (filter_negb_length short_and_near new_segments). lia.
Qed.

Lemma stray_lists_meaning_aux (remove_stray : bool) (doc : gpx) :
  let out := process_gpx_with_stats rects circles max_stray_length remove_stray
               max_stray_vicinity doc in
  stray_rect (out_stray out)
  = map (fun rc =>
           map seg_length
             (List.filter
                (fun s => bool_decide (seg_length s <= max_stray_length)%R
                          && near_rect max_stray_vicinity s rc)
                (out_new_segments out))) rects
  /\ stray_circle (out_stray out)
     = map (fun c =>
              map seg_length
                (List.filter
                   (fun s => bool_decide (seg_length s <= max_stray_length)%R
                             && near_circle max_stray_vicinity s c)
                   (out_new_segments out))) circles.
Proof.
  cbv zeta. unfold process_gpx_with_stats.
  destruct (first_pass rects circles doc) as [cnt new_segments]. simpl.
  unfold second_pass.
  destruct (classify_from_lists rects circles max_stray_length max_stray_vicinity
              0 new_segments (init_stray_stats rects circles))
    as (Hlr & Hlc & Hr & Hc).
  simpl in Hlr, Hlc. rewrite length_replicate in Hlr, Hlc. split.
  - apply list_eq. intros i. rewrite list_lookup_fmap.
    destruct (rects !! i) as [rc |] eqn:Hi; simpl.
    + rewrite (Hr i rc Hi). simpl.
      rewrite lookup_replicate_2 by (by eapply lookup_lt_Some). done.
    + apply lookup_ge_None. rewrite Hlr. by apply lookup_ge_None.
  - apply list_eq. intros i. rewrite list_lookup_fmap.
    destruct (circles !! i) as [c |] eqn:Hi; simpl.
    + rewrite (Hc i c Hi). simpl.
      rewrite lookup_replicate_2 by (by eapply lookup_lt_Some). done.
    + apply lookup_ge_None. rewrite Hlc. by apply lookup_ge_None.
Qed.

(** X11. The list of stray lengths of each rectangle and of each circle: the
    lengths, in order, of the new segments that are at most
    [max_stray_length] long and have a point in the expanded zone of that
    region. *)
Theorem stray_lists_meaning (remove_stray : bool) (doc : gpx) :
  let out := process_gpx_with_stats rects circles max_stray_length remove_stray
               max_stray_vicinity doc in
  stray_rect (out_stray out)
  = map (fun rc =>
           map seg_length
             (List.filter
                (fun s => bool_decide (seg_length s <= max_stray_length)%R
                          && near_rect max_stray_vicinity s rc)
                (out_new_segments out))) rects
  /\ stray_circle (out_stray out)
     = map (fun c =>
              map seg_length
                (List.filter
                   (fun s => bool_decide (seg_length s <= max_stray_length)%R
                             && near_circle max_stray_vicinity s c)
                   (out_new_segments out))) circles.
Proof. apply stray_lists_meaning_aux. Qed.

Lemma stray_lengths_in_range (segs : list trkseg) (f : trkseg -> bool) :
  Forall (fun y => (0 <= y <= max_stray_length)%R)
    (map seg_length
       (List.filter
          (fun s => bool_decide (seg_length s <= max_stray_length)%R && f s) segs)).
Proof.
  apply Forall_forall. intros y Hy. apply list_elem_of_In in Hy.
  apply in_map_iff in Hy as (s & <- & Hs). apply filter_In in Hs as (_ & Hs).
  apply andb_true_iff in Hs as (Hs & _). apply bool_decide_eq_true in Hs.
  split; [apply seg_length_nonneg | done].
Qed.

(** X12. What is logged for a region: either no stray segment and an
    empty list, or the number of lengths in its list, which is positive,
    with a minimum and a maximum that are lengths of the list, bound all
    of them, and lie between 0 and [max_stray_length]. *)
Theorem stray_report_min_max (remove_stray : bool) (doc : gpx) :
  let st := out_stray (process_gpx_with_stats rects circles max_stray_length
                         remove_stray max_stray_vicinity doc) in
  Forall (fun lengths =>
            match report_lengths lengths with
            | NoStraySegments => lengths = []
            | StraySegments n mn mx _ =>
                n = length lengths /\ 0 < n /\ mn ∈ lengths /\ mx ∈ lengths
                /\ Forall (fun y => (mn <= y <= mx)%R) lengths
                /\ (0 <= mn)%R /\ (mn <= mx)%R /\ (mx <= max_stray_length)%R
            end)
    (stray_rect st ++ stray_circle st).
Proof.
  cbv zeta. destruct (stray_lists_meaning_aux remove_stray doc) as (-> & ->).
  apply Forall_app. split; apply Forall_map, Forall_forall; intros r _; simpl;
    apply report_lengths_min_max, stray_lengths_in_range.
Qed.

End StrayTheorems.

(** ** No region *)

Lemma segments_of_no_region (pts : trkseg) :
  segments_of [] [] pts = match pts with [] => [] | _ :: _ => [pts] end.
Proof.
  destruct pts as [| p pts]; [done |].
  apply segments_of_clean. split; [done |]. by apply Forall_forall.
Qed.

Lemma no_region_no_stray (max_stray_length : R) (max_stray_vicinity : option R)
    (segs : list trkseg) :
  global_stray_indices (second_pass [] [] max_stray_length max_stray_vicinity segs)
  = ∅.
Proof.
  apply set_eq. intros idx. rewrite second_pass_stray_iff. split.
  - by intros (seg & _ & _ & ?).
  - intros Hin. by apply not_elem_of_empty in Hin.
Qed.

Lemma keep_not_stray_empty (idx : nat) (segs : list trkseg) :
  keep_not_stray idx segs ∅ = segs.
Proof.
  revert idx. induction segs as [| s segs IH]; intros idx; simpl; [done |].
  rewrite decide_False by apply not_elem_of_empty. by rewrite IH.
Qed.

Lemma no_region_run
    (max_stray_length : R) (remove_stray : bool) (max_stray_vicinity : option R)
    (doc : gpx) :
  let out := process_gpx_with_stats [] [] max_stray_length remove_stray
               max_stray_vicinity doc in
  total_points_removed (out_removed out) = 0
  /\ global_stray_indices (out_stray out) = ∅
  /\ out_final_segments out
     = List.filter (fun s => match s with [] => false | _ :: _ => true end)
         (concat (map trksegs doc))
  /\ concat (out_final_segments out) = points_of_gpx doc.
Proof.
  cbv zeta.
  assert (Hnew : (first_pass [] [] doc).2
                 = List.filter (fun s => match s with [] => false | _ :: _ => true end)
                     (concat (map trksegs doc))).
  { rewrite first_pass_segments_of.
    induction (concat (map trksegs doc)) as [| s l IH]; [done |].
    cbn [map concat List.filter]. rewrite segments_of_no_region, IH.
    by destruct s. }
  assert (Hpts : concat (first_pass [] [] doc).2 = points_of_gpx doc).
  { rewrite first_pass_points. apply filter_all_true. by apply Forall_forall. }
  destruct (first_pass_counts [] [] doc) as (Htot & _).
  rewrite (filter_all_false _ (points_of_gpx doc)) in Htot
    by (by apply Forall_forall).
  unfold process_gpx_with_stats.
  destruct (first_pass [] [] doc) as [cnt new_segments]. simpl in *.
  rewrite no_region_no_stray.
  assert (Hthird : third_pass remove_stray new_segments ∅ = new_segments).
  { unfold third_pass. destruct remove_stray; [apply keep_not_stray_empty | done]. }
  rewrite Hthird. by subst.
Qed.

(** X13. Without regions the run is a filter that only drops empty segments:
    no point is removed, no segment is stray, with or without stray
    removal the segments written are the non-empty segments of the
    document in order, and their points are all the points of the
    document. *)
Theorem no_region_keeps_every_point
    (max_stray_length : R) (remove_stray : bool) (max_stray_vicinity : option R)
    (doc : gpx) :
  let out := process_gpx_with_stats [] [] max_stray_length remove_stray
               max_stray_vicinity doc in
  total_points_removed (out_removed out) = 0
  /\ global_stray_indices (out_stray out) = ∅
  /\ out_final_segments out
     = List.filter (fun s => match s with [] => false | _ :: _ => true end)
         (concat (map trksegs doc))
  /\ concat (out_final_segments out) = points_of_gpx doc.
Proof.
  apply no_region_run.
Qed.

(** ** The bound on the length *)

(** X14. Raising [max_stray_length] never takes a segment out of the set of
    stray indices. *)
Theorem larger_bound_flags_more
    (rects : list rect) (circles : list circle) (max1 max2 : R)
    (max_stray_vicinity : option R) (new_segments : list trkseg) :
  (max1 <= max2)%R ->
  global_stray_indices (second_pass rects circles max1 max_stray_vicinity new_segments)
  ⊆ global_stray_indices (second_pass rects circles max2 max_stray_vicinity new_segments).
Proof.
  intros Hle idx. rewrite !second_pass_stray_iff.
  intros (seg & Hs & Hlen & Hnear). exists seg. split; [done |]. split; [lra | done].
Qed.

Lemma larger_bound_flags_more_witness :
  global_stray_indices (second_pass [rect_unit] [] 0 None [[mk_trkpt 5 5 [] []]])
  ⊆ global_stray_indices (second_pass [rect_unit] [] 10 None [[mk_trkpt 5 5 [] []]]).
Proof.
  apply (larger_bound_flags_more [rect_unit] [] 0 10 None). lra.
Defined.

(** ** More geometry *)

Section MoreGeoMath.
Local Open Scope R_scope.

Lemma atan2_le_half_pi (y x : R) : 0 <= y -> 0 <= x -> atan2 y x <= PI / 2.
Proof.
  intros Hy Hx. unfold atan2. pose proof PI_RGT_0.
  destruct (decide (0 < x)).
  - left. apply atan_bound.
  - rewrite decide_False by lra.
    destruct (decide (0 < y)); [lra |]. rewrite decide_False by lra. lra.
Qed.

(** X15. The distance does not depend on the order of the two points, and it
    lies between 0 and half the circumference of the sphere. *)
Theorem haversine_symmetric_bounded (lat1 lon1 lat2 lon2 : R) :
  haversine lat1 lon1 lat2 lon2 = haversine lat2 lon2 lat1 lon1
  /\ 0 <= haversine lat1 lon1 lat2 lon2 <= 6371000 * PI.
Proof.
  split; [| split; [apply haversine_nonneg |]].
  - unfold haversine. cbv zeta.
    replace (radians (lat1 - lat2) / 2) with (- (radians (lat2 - lat1) / 2))
      by (unfold radians; lra).
    replace (radians (lon1 - lon2) / 2) with (- (radians (lon2 - lon1) / 2))
      by (unfold radians; lra).
    rewrite !sin_neg.
    replace ((- sin (radians (lat2 - lat1) / 2)) ^ 2
             + cos (radians lat2) * cos (radians lat1)
               * (- sin (radians (lon2 - lon1) / 2)) ^ 2)
      with (sin (radians (lat2 - lat1) / 2) ^ 2
            + cos (radians lat1) * cos (radians lat2)
              * sin (radians (lon2 - lon1) / 2) ^ 2) by ring.
    reflexivity.
  - unfold haversine. cbv zeta.
    pose proof (atan2_le_half_pi
                  (sqrt (sin (radians (lat2 - lat1) / 2) ^ 2
                         + cos (radians lat1) * cos (radians lat2)
                           * sin (radians (lon2 - lon1) / 2) ^ 2))
                  (sqrt (1 - (sin (radians (lat2 - lat1) / 2) ^ 2
                              + cos (radians lat1) * cos (radians lat2)
                                * sin (radians (lon2 - lon1) / 2) ^ 2)))
                  (sqrt_pos _) (sqrt_pos _)).
    lra.
Qed.

Lemma default_vicinity_nonneg (rc : rect) : 0 <= default_vicinity rc.
Proof.
  destruct rc as [[[lat1 lon1] lat2] lon2]. unfold default_vicinity.
  set (w := haversine _ _ _ _). set (h := haversine _ _ _ _).
  pose proof (haversine_nonneg ((Rmin lat1 lat2 + Rmax lat1 lat2) / 2)
                (Rmin lon1 lon2) ((Rmin lat1 lat2 + Rmax lat1 lat2) / 2)
                (Rmax lon1 lon2)) as Hw. fold w in Hw.
  pose proof (haversine_nonneg (Rmin lat1 lat2) ((Rmin lon1 lon2 + Rmax lon1 lon2) / 2)
                (Rmax lat1 lat2) ((Rmin lon1 lon2 + Rmax lon1 lon2) / 2)) as Hh.
  fold h in Hh. unfold Rmin at 1. destruct (Rle_dec w h); lra.
Qed.

(** X16. A rectangle is the same region whichever diagonal and whichever
    order of the two corners is given, for the strict test and for the
    expanded one. *)
Theorem rect_corner_order_irrelevant
    (lat lon lat1 lon1 lat2 lon2 : R) (vicinity : option R) :
  point_in_rect lat lon (lat2, lon2, lat1, lon1)
  = point_in_rect lat lon (lat1, lon1, lat2, lon2)
  /\ point_in_rect lat lon (lat1, lon2, lat2, lon1)
     = point_in_rect lat lon (lat1, lon1, lat2, lon2)
  /\ point_in_expanded_rectangle lat lon (lat2, lon2, lat1, lon1) vicinity
     = point_in_expanded_rectangle lat lon (lat1, lon1, lat2, lon2) vicinity
  /\ point_in_expanded_rectangle lat lon (lat1, lon2, lat2, lon1) vicinity
     = point_in_expanded_rectangle lat lon (lat1, lon1, lat2, lon2) vicinity.
Proof.
  unfold point_in_rect, point_in_expanded_rectangle, default_vicinity.
  rewrite (Rmin_comm lat2 lat1), (Rmax_comm lat2 lat1),
    (Rmin_comm lon2 lon1), (Rmax_comm lon2 lon1).
  done.
Qed.

(** X17. A point of a circle is in the expanded circle when the vicinity is
    the default one or an override that is not negative. *)
Theorem circle_vicinity_contains_circle
    (lat lon : R) (c : circle) (vicinity : option R) :
  match vicinity with Some v => 0 <= v | None => True end ->
  point_in_circle lat lon c = true ->
  point_in_circle_vicinity lat lon c vicinity = true.
Proof.
  destruct c as [[clat clon] radius]. intros Hv Hin.
  apply point_in_circle_spec in Hin.
  unfold point_in_circle_vicinity. apply bool_decide_eq_true.
  pose proof (haversine_nonneg lat lon clat clon).
  destruct vicinity; lra.
Qed.

Lemma circle_vicinity_contains_circle_witness :
  point_in_circle_vicinity 10 10 (10, 10, 0) (Some 5) = true.
Proof.
  apply (circle_vicinity_contains_circle 10 10 (10, 10, 0) (Some 5)).
  - simpl. lra.
  - apply point_in_circle_spec. rewrite haversine_same. lra.
Defined.

(** X18. A point of a rectangle whose corners lie strictly between the poles
    is in the expanded rectangle when the vicinity is the default one or
    an override that is not negative. *)
Theorem expanded_rectangle_contains_rectangle
    (lat lon lat1 lon1 lat2 lon2 : R) (vicinity : option R) :
  -90 < lat1 < 90 -> -90 < lat2 < 90 ->
  match vicinity with Some v => 0 <= v | None => True end ->
  point_in_rect lat lon (lat1, lon1, lat2, lon2) = true ->
  point_in_expanded_rectangle lat lon (lat1, lon1, lat2, lon2) vicinity = true.
Proof.
  intros H1 H2 Hv Hin. apply point_in_rect_spec in Hin as [Hlat Hlon].
  unfold point_in_expanded_rectangle.
  set (v := match vicinity with
            | Some v => v
            | None => default_vicinity (lat1, lon1, lat2, lon2)
            end).
  assert (Hv0 : 0 <= v).
  { subst v. destruct vicinity; [done | apply default_vicinity_nonneg]. }
  set (center := (Rmin lat1 lat2 + Rmax lat1 lat2) / 2).
  assert (Hc : -90 < center < 90).
  { subst center. unfold Rmin, Rmax. destruct (Rle_dec lat1 lat2); lra. }
  assert (Hcos : 0 < cos (radians center)).
  { pose proof PI_RGT_0. apply cos_gt_0; unfold radians; nra. }
  assert (Hdlat : 0 <= v / 111111).
  { unfold Rdiv. apply Rmult_le_pos; [done |]. left. apply Rinv_0_lt_compat. lra. }
  assert (Hdlon : 0 <= v / (111111 * cos (radians center))).
  { unfold Rdiv. apply Rmult_le_pos; [done |]. left. apply Rinv_0_lt_compat. nra. }
  rewrite !andb_true_iff, !bool_decide_eq_true. lra.
Qed.

Lemma expanded_rectangle_contains_rectangle_witness :
  point_in_expanded_rectangle (1 / 2) (1 / 2) (0, 0, 1, 1) None = true.
Proof.
  apply (expanded_rectangle_contains_rectangle (1 / 2) (1 / 2) 0 0 1 1 None);
    [lra | lra | done |].
  apply point_in_rect_spec. unfold Rmin, Rmax. destruct (Rle_dec 0 1); lra.
Defined.

(** X19. A circle of negative radius holds no point, and neither does its
    default expanded circle. *)
Theorem negative_radius_circle_is_empty (lat lon clat clon radius : R) :
  radius < 0 ->
  point_in_circle lat lon (clat, clon, radius) = false
  /\ point_in_circle_vicinity lat lon (clat, clon, radius) None = false.
Proof.
  intros Hr. pose proof (haversine_nonneg lat lon clat clon).
  unfold point_in_circle, point_in_circle_vicinity.
  split; apply bool_decide_eq_false; lra.
Qed.

Lemma negative_radius_circle_is_empty_witness :
  point_in_circle 0 0 (0, 0, -1) = false
  /\ point_in_circle_vicinity 0 0 (0, 0, -1) None = false.
Proof. apply (negative_radius_circle_is_empty 0 0 0 0 (-1)). lra. Defined.

End MoreGeoMath.

(** ** The command line *)

Lemma truthy_py_or (a b : option string) :
  truthy (py_or a b) = truthy a || truthy b.
Proof. unfold py_or. by destruct (truthy a) eqn:E; rewrite ?E. Qed.

Lemma truthy_Some (a : option string) :
  truthy a = true -> exists s, a = Some s /\ s <> ""%string.
Proof.
  destruct a as [s |]; [| done]. simpl. intros H. exists s. split; [done |].
  intros ->. done.
Qed.

(** X20. [main] ends with a usage error exactly when no input file or no
    output file is given, an empty name counting as none; otherwise it
    calls the pipeline with file names that are not empty, the positional
    name when there is one and the name of the option otherwise. *)
Theorem main_usage_error (args : cli_args) :
  (main args = None
   <-> (truthy (arg_infile args) = false /\ truthy (arg_input args) = false)
       \/ (truthy (arg_outfile args) = false /\ truthy (arg_output args) = false))
  /\ (forall c, main args = Some c ->
        call_input_file c <> ""%string /\ call_output_file c <> ""%string
        /\ Some (call_input_file c)
           = (if truthy (arg_infile args) then arg_infile args else arg_input args)
        /\ Some (call_output_file c)
           = (if truthy (arg_outfile args) then arg_outfile args else arg_output args)).
Proof.
  unfold main. cbv zeta.
  pose proof (truthy_py_or (arg_infile args) (arg_input args)) as Hi.
  pose proof (truthy_py_or (arg_outfile args) (arg_output args)) as Ho.
  destruct (truthy (py_or (arg_infile args) (arg_input args))) eqn:Ei;
    destruct (truthy (py_or (arg_outfile args) (arg_output args))) eqn:Eo; simpl.
  - destruct (truthy_Some _ Ei) as (i & Hsi & Hni).
    destruct (truthy_Some _ Eo) as (o & Hso & Hno).
    rewrite Hsi, Hso. split.
    + split; [done |]. symmetry in Hi, Ho.
      apply orb_true_iff in Hi. apply orb_true_iff in Ho.
      intros [[? ?] | [? ?]]; destruct Hi, Ho; congruence.
    + intros c [= <-]. simpl. unfold py_or in Hsi, Hso. by rewrite Hsi, Hso.
  - split; [| done]. split; [| done]. intros _. right.
    symmetry in Ho. by apply orb_false_iff in Ho.
  - split; [| done]. split; [| done]. intros _. left.
    symmetry in Hi. by apply orb_false_iff in Hi.
  - split; [| done]. split; [| done]. intros _. left.
    symmetry in Hi. by apply orb_false_iff in Hi.
Qed.

Lemma main_usage_error_witness :
  call_input_file (mk_pipeline_call "in.gpx" "out.gpx" [] [] 10 false None)
  <> ""%string.
Proof.
  destruct (main_usage_error args_positional_only) as (_ & H).
  by destruct (H (mk_pipeline_call "in.gpx" "out.gpx" [] [] 10 false None) eq_refl).
Defined.

(** X21. Called with no [-r] and no [-c], the script removes no point and no
    segment but the empty ones: the points written are the points read. *)
Theorem main_without_regions_keeps_every_point
    (args : cli_args) (c : pipeline_call) (doc : gpx) :
  arg_rect args = None -> arg_circle args = None -> main args = Some c ->
  total_points_removed (out_removed (run_call c doc)) = 0
  /\ concat (out_final_segments (run_call c doc)) = points_of_gpx doc.
Proof.
  intros Hr Hc Hmain. unfold main in Hmain. cbv zeta in Hmain.
  rewrite Hr, Hc in Hmain.
  destruct (negb _ || negb _); [done |].
  destruct (py_or (arg_infile args) (arg_input args)); [| done].
  destruct (py_or (arg_outfile args) (arg_output args)); [| done].
  injection Hmain as <-. unfold run_call. simpl.
  destruct (no_region_run (arg_max_stray_length args)
              (arg_remove_stray_segments args) (arg_max_stray_vicinity args) doc)
    as (Ht & _ & _ & Hp).
  done.
Qed.

Lemma main_without_regions_keeps_every_point_witness :
  total_points_removed
    (out_removed (run_call (mk_pipeline_call "in.gpx" "out.gpx" [] [] 10 false None)
                    two_tracks)) = 0.
Proof.
  by destruct (main_without_regions_keeps_every_point args_positional_only
                 (mk_pipeline_call "in.gpx" "out.gpx" [] [] 10 false None)
                 two_tracks eq_refl eq_refl eq_refl).
Defined.

(** ** One segment in the loop of the second pass *)

Lemma classify_from_app
    (rects : list rect) (circles : list circle) (max_stray_length : R)
    (max_stray_vicinity : option R) (idx : nat) (l1 l2 : list trkseg)
    (st : stray_stats) :
  classify_from rects circles max_stray_length max_stray_vicinity idx (l1 ++ l2) st
  = classify_from rects circles max_stray_length max_stray_vicinity
      (idx + length l1) l2
      (classify_from rects circles max_stray_length max_stray_vicinity idx l1 st).
Proof.
  revert idx st. induction l1 as [| s l1 IH]; intros idx st.
  - simpl. by rewrite Nat.add_0_r.
  - cbn [app classify_from length]. rewrite IH. f_equal. lia.
Qed.

Section RunLevel.

Variable rects : list rect.
Variable circles : list circle.
Variable max_stray_length : R.
Variable max_stray_vicinity : option R.

Local Abbreviation near_rect := (near_rect max_stray_vicinity).
Local Abbreviation near_circle := (near_circle max_stray_vicinity).
Local Abbreviation near_some_region :=
  (near_some_region rects circles max_stray_vicinity).
Local Abbreviation short_and_near :=
  (short_and_near rects circles max_stray_length max_stray_vicinity).
Local Abbreviation classify :=
  (classify_segment rects circles max_stray_length max_stray_vicinity).
Local Abbreviation classify_from :=
  (classify_from rects circles max_stray_length max_stray_vicinity).
Local Abbreviation second_pass :=
  (second_pass rects circles max_stray_length max_stray_vicinity).
Local Abbreviation recorded := (recorded_lengths max_stray_length).
Local Abbreviation init := (init_stray_stats rects circles).

Lemma process_passes (remove_stray : bool) (doc : gpx) :
  let out := process_gpx_with_stats rects circles max_stray_length remove_stray
               max_stray_vicinity doc in
  out_stray out = second_pass (out_new_segments out)
  /\ out_final_segments out
     = third_pass remove_stray (out_new_segments out)
         (global_stray_indices (out_stray out)).
Proof.
  cbv zeta. unfold process_gpx_with_stats.
  by destruct (first_pass rects circles doc) as [cnt new_segments].
Qed.

Lemma second_pass_middle (pre post : list trkseg) (seg : trkseg) :
  second_pass (pre ++ seg :: post)
  = classify_from (S (length pre)) post
      (classify (length pre) seg (classify_from 0 pre init)).
Proof. unfold second_pass. by rewrite classify_from_app. Qed.

Lemma second_pass_indices (segs : list trkseg) (j : nat) :
  j ∈ global_stray_indices (second_pass segs) -> j < length segs.
Proof.
  rewrite second_pass_stray_iff. intros (seg & Hj & _). by eapply lookup_lt_Some.
Qed.

Lemma second_pass_lists (segs : list trkseg) :
  stray_rect (second_pass segs) = map (fun rc => recorded (fun s => near_rect s rc) segs) rects
  /\ stray_circle (second_pass segs)
     = map (fun c => recorded (fun s => near_circle s c) segs) circles.
Proof.
  unfold second_pass.
  destruct (classify_from_lists rects circles max_stray_length max_stray_vicinity
              0 segs init) as (Hlr & Hlc & Hr & Hc).
  simpl in Hlr, Hlc. rewrite length_replicate in Hlr, Hlc. split.
  - apply list_eq. intros i. rewrite list_lookup_fmap.
    destruct (rects !! i) as [rc |] eqn:Hi; simpl.
    + rewrite (Hr i rc Hi). simpl.
      rewrite lookup_replicate_2 by (by eapply lookup_lt_Some). done.
    + apply lookup_ge_None. rewrite Hlr. by apply lookup_ge_None.
  - apply list_eq. intros i. rewrite list_lookup_fmap.
    destruct (circles !! i) as [c |] eqn:Hi; simpl.
    + rewrite (Hc i c Hi). simpl.
      rewrite lookup_replicate_2 by (by eapply lookup_lt_Some). done.
    + apply lookup_ge_None. rewrite Hlc. by apply lookup_ge_None.
Qed.

Lemma second_pass_size (segs : list trkseg) :
  size (global_stray_indices (second_pass segs))
  = length (List.filter short_and_near segs).
Proof.
  unfold second_pass. rewrite classify_from_size.
  - unfold init_stray_stats. cbn [global_stray_indices]. by rewrite size_empty.
  - unfold init_stray_stats. cbn [global_stray_indices].
    intros j Hj. by apply not_elem_of_empty in Hj.
Qed.

(** What one segment adds to the list of a region. *)
Lemma recorded_middle (near : trkseg -> bool) (pre post : list trkseg) (seg : trkseg) :
  recorded near (pre ++ seg :: post)
  = recorded near pre
    ++ (if bool_decide (seg_length seg <= max_stray_length)%R && near seg
        then [seg_length seg] else [])
    ++ recorded near post.
Proof.
  unfold recorded_lengths. rewrite List.filter_app, map_app. cbn [List.filter].
  by destruct (bool_decide _ && near seg).
Qed.

Lemma recorded_without (near : trkseg -> bool) (pre post : list trkseg) (seg : trkseg) :
  (max_stray_length < seg_length seg)%R ->
  recorded near (pre ++ seg :: post) = recorded near (pre ++ post).
Proof.
  intros Hlong. rewrite recorded_middle.
  rewrite bool_decide_eq_false_2 by lra. simpl.
  unfold recorded_lengths. by rewrite List.filter_app, map_app.
Qed.

(** C4. In a run, a segment of [new_segments] that is at most
    [max_stray_length] long: the loop of the second pass reaches it with
    its own index and goes on with the segments after it; for every
    region its length is appended once to the list of that region if
    some point of the segment is in the expanded zone of the region, the
    first such point ending the scan for that region only, so that at the
    end of the run the list of each region holds what the segments before
    recorded, then this length once or not at all, then what the segments
    after recorded; and its index is in the set of stray indices, once,
    exactly when some region matched. *)
Theorem classify_eligible_segment
    (remove_stray : bool) (doc : gpx) (pre post : list trkseg) (seg : trkseg) :
  let out := process_gpx_with_stats rects circles max_stray_length remove_stray
               max_stray_vicinity doc in
  out_new_segments out = pre ++ seg :: post ->
  (seg_length seg <= max_stray_length)%R ->
  let seg_idx := length pre in
  let len := seg_length seg in
  let before := classify_from 0 pre init in
  let after := classify seg_idx seg before in
  out_stray out = classify_from (S seg_idx) post after
  /\ (forall i rc, rects !! i = Some rc ->
       stray_rect after !! i
       = if near_rect seg rc then (fun l => l ++ [len]) <$> stray_rect before !! i
         else stray_rect before !! i)
  /\ (forall i c, circles !! i = Some c ->
       stray_circle after !! i
       = if near_circle seg c then (fun l => l ++ [len]) <$> stray_circle before !! i
         else stray_circle before !! i)
  /\ (forall rc i pts0 p rest st0,
       seg = pts0 ++ p :: rest ->
       Forall (fun pt => point_in_expanded_rectangle (pt_lat pt) (pt_lon pt) rc
                           max_stray_vicinity = false) pts0 ->
       point_in_expanded_rectangle (pt_lat p) (pt_lon p) rc max_stray_vicinity
       = true ->
       scan_rect max_stray_vicinity rc i seg_idx len seg st0
       = record_rect i seg_idx len st0
       /\ scan_rect max_stray_vicinity rc i seg_idx len (pts0 ++ [p]) st0
          = record_rect i seg_idx len st0)
  /\ (forall c i pts0 p rest st0,
       seg = pts0 ++ p :: rest ->
       Forall (fun pt => point_in_circle_vicinity (pt_lat pt) (pt_lon pt) c
                           max_stray_vicinity = false) pts0 ->
       point_in_circle_vicinity (pt_lat p) (pt_lon p) c max_stray_vicinity = true ->
       scan_circle max_stray_vicinity c i seg_idx len seg st0
       = record_circle i seg_idx len st0
       /\ scan_circle max_stray_vicinity c i seg_idx len (pts0 ++ [p]) st0
          = record_circle i seg_idx len st0)
  /\ global_stray_indices after
     = (if near_some_region seg then {[seg_idx]} ∪ global_stray_indices before
        else global_stray_indices before)
  /\ (seg_idx ∉ global_stray_indices before)
  /\ stray_rect (out_stray out)
     = map (fun rc =>
              recorded (fun s => near_rect s rc) pre
              ++ (if near_rect seg rc then [len] else [])
              ++ recorded (fun s => near_rect s rc) post) rects
  /\ stray_circle (out_stray out)
     = map (fun c =>
              recorded (fun s => near_circle s c) pre
              ++ (if near_circle seg c then [len] else [])
              ++ recorded (fun s => near_circle s c) post) circles
  /\ (seg_idx ∈ global_stray_indices (out_stray out)
      <-> near_some_region seg = true)
  /\ size (global_stray_indices (out_stray out))
     = length (List.filter short_and_near pre)
       + (if near_some_region seg then 1 else 0)
       + length (List.filter short_and_near post).
Proof.
  intros out Hnew Hlen seg_idx len before after.
  destruct (process_passes remove_stray doc) as (Hstray & _). fold out in Hstray.
  rewrite Hnew in Hstray.
  destruct (classify_segment_short rects circles max_stray_length
              max_stray_vicinity seg_idx seg before Hlen) as (Hr & Hc & Hg).
  assert (Hshort : bool_decide (seg_length seg <= max_stray_length)%R = true)
    by (by apply bool_decide_eq_true_2).
  split; [by rewrite Hstray, second_pass_middle |].
  split; [exact Hr |]. split; [exact Hc |].
  split; [| split; [| split; [| split; [| split; [| split; [| split]]]]]].
  - intros rc i pts0 p rest st0 -> Hpre Hp. split; by apply scan_rect_first_match.
  - intros c i pts0 p rest st0 -> Hpre Hp. split; by apply scan_circle_first_match.
  - exact Hg.
  - intros Hin. apply (second_pass_indices pre) in Hin. subst seg_idx. lia.
  - rewrite Hstray. destruct (second_pass_lists (pre ++ seg :: post)) as (-> & _).
    apply map_ext. intros rc. by rewrite recorded_middle, Hshort.
  - rewrite Hstray. destruct (second_pass_lists (pre ++ seg :: post)) as (_ & ->).
    apply map_ext. intros c. by rewrite recorded_middle, Hshort.
  - rewrite Hstray, second_pass_stray_iff. split.
    + intros (s & Hs & _ & Hnear).
      subst seg_idx. rewrite list_lookup_middle in Hs by done. by injection Hs as <-.
    + intros Hnear. exists seg. split; [by apply list_lookup_middle |]. done.
  - rewrite Hstray, second_pass_size, List.filter_app, length_app.
    cbn [List.filter]. unfold short_and_near at 2. rewrite Hshort. simpl.
    destruct (near_some_region seg); simpl; lia.
Qed.

(** C5. In a run, a segment of [new_segments]: its length is the sum of
    the distances between its consecutive points (0 below two points),
    and it is flagged exactly when this length is at most
    [max_stray_length] and some point of it is in the expanded zone of a
    region.  A longer segment is never flagged: the loop leaves the lists
    and the set as they are, at the end of the run its index is not in
    the set, the lists of all regions are those of the run without it,
    and it is written to the output.  A segment whose length is the bound
    is still classified: its index is in the set as soon as a region
    matches and its length is in the list of every region that matches. *)
Theorem stray_threshold_inclusive
    (remove_stray : bool) (doc : gpx) (pre post : list trkseg) (seg : trkseg) :
  let out := process_gpx_with_stats rects circles max_stray_length remove_stray
               max_stray_vicinity doc in
  out_new_segments out = pre ++ seg :: post ->
  let seg_idx := length pre in
  let before := classify_from 0 pre init in
  seg_length seg = path_length seg
  /\ out_stray out = classify_from (S seg_idx) post (classify seg_idx seg before)
  /\ (seg_idx ∈ global_stray_indices (out_stray out)
      <-> (seg_length seg <= max_stray_length)%R /\ near_some_region seg = true)
  /\ ((max_stray_length < seg_length seg)%R ->
      classify seg_idx seg before = before
      /\ (seg_idx ∉ global_stray_indices (out_stray out))
      /\ stray_rect (out_stray out) = stray_rect (second_pass (pre ++ post))
      /\ stray_circle (out_stray out) = stray_circle (second_pass (pre ++ post))
      /\ seg ∈ out_final_segments out)
  /\ (seg_length seg = max_stray_length ->
      (seg_idx ∈ global_stray_indices (out_stray out)
       <-> near_some_region seg = true)
      /\ stray_rect (out_stray out)
         = map (fun rc =>
                  recorded (fun s => near_rect s rc) pre
                  ++ (if near_rect seg rc then [max_stray_length] else [])
                  ++ recorded (fun s => near_rect s rc) post) rects
      /\ stray_circle (out_stray out)
         = map (fun c =>
                  recorded (fun s => near_circle s c) pre
                  ++ (if near_circle seg c then [max_stray_length] else [])
                  ++ recorded (fun s => near_circle s c) post) circles).
Proof.
  intros out Hnew seg_idx before.
  destruct (process_passes remove_stray doc) as (Hstray & Hfinal).
  fold out in Hstray, Hfinal. rewrite Hnew in Hstray.
  assert (Hiff : seg_idx ∈ global_stray_indices (out_stray out)
                 <-> (seg_length seg <= max_stray_length)%R
                     /\ near_some_region seg = true).
  { rewrite Hstray, second_pass_stray_iff. split.
    - intros (s & Hs & ? & ?).
      subst seg_idx. rewrite list_lookup_middle in Hs by done. by injection Hs as <-.
    - intros (? & ?). exists seg. split; [by apply list_lookup_middle | done]. }
  split; [apply seg_length_path_length |].
  split; [by rewrite Hstray, second_pass_middle |].
  split; [exact Hiff |]. split.
  - intros Hlong.
    split; [by apply classify_segment_long |].
    split; [rewrite Hiff; intros [? _]; lra |].
    destruct (second_pass_lists (pre ++ seg :: post)) as (Hr & Hc).
    destruct (second_pass_lists (pre ++ post)) as (Hr' & Hc').
    split; [| split].
    + rewrite Hstray, Hr, Hr'. apply map_ext. intros rc. by apply recorded_without.
    + rewrite Hstray, Hc, Hc'. apply map_ext. intros c. by apply recorded_without.
    + rewrite Hfinal, Hnew. unfold third_pass. destruct remove_stray.
      * rewrite (keep_not_stray_filter rects circles max_stray_length
                   max_stray_vicinity).
        -- apply list_elem_of_In, filter_In. split.
           ++ apply list_elem_of_In, elem_of_app. right. by left.
           ++ unfold short_and_near.
              by rewrite bool_decide_eq_false_2 by lra.
        -- intros k s Hk. simpl. rewrite Hstray.
           by apply second_pass_short_and_near.
      * apply elem_of_app. right. by left.
  - intros Heq.
    assert (Hshort : bool_decide (seg_length seg <= max_stray_length)%R = true)
      by (apply bool_decide_eq_true_2; lra).
    split; [rewrite Hiff; split; [by intros [_ ?] | intros ?; split; [lra | done]] |].
    destruct (second_pass_lists (pre ++ seg :: post)) as (Hr & Hc).
    split.
    + rewrite Hstray, Hr. apply map_ext. intros rc.
      by rewrite recorded_middle, Hshort, Heq.
    + rewrite Hstray, Hc. apply map_ext. intros c.
      by rewrite recorded_middle, Hshort, Heq.
Qed.

End RunLevel.

(** ** A run with segments near two of three rectangles *)

Section ExpandedRectangleTests.
Local Open Scope R_scope.

Lemma expanded_rect_in (lat lon lat1 lon1 lat2 lon2 v : R) :
  -90 < lat1 < 90 -> -90 < lat2 < 90 -> 0 <= v ->
  Rmin lat1 lat2 - v / 111111 <= lat <= Rmax lat1 lat2 + v / 111111 ->
  Rmin lon1 lon2 <= lon <= Rmax lon1 lon2 ->
  point_in_expanded_rectangle lat lon (lat1, lon1, lat2, lon2) (Some v) = true.
Proof.
  intros H1 H2 Hv Hlat Hlon. unfold point_in_expanded_rectangle.
  set (center := (Rmin lat1 lat2 + Rmax lat1 lat2) / 2).
  assert (Hc : -90 < center < 90).
  { subst center. unfold Rmin, Rmax. destruct (Rle_dec lat1 lat2); lra. }
  assert (Hcos : 0 < cos (radians center)).
  { pose proof PI_RGT_0. apply cos_gt_0; unfold radians; nra. }
  assert (Hdlon : 0 <= v / (111111 * cos (radians center))).
  { unfold Rdiv. apply Rmult_le_pos; [done |]. left. apply Rinv_0_lt_compat. nra. }
  rewrite !andb_true_iff, !bool_decide_eq_true. lra.
Qed.

Lemma expanded_rect_out_lat (lat lon lat1 lon1 lat2 lon2 v : R) :
  lat < Rmin lat1 lat2 - v / 111111 \/ Rmax lat1 lat2 + v / 111111 < lat ->
  point_in_expanded_rectangle lat lon (lat1, lon1, lat2, lon2) (Some v) = false.
Proof.
  intros Hout. unfold point_in_expanded_rectangle. apply not_true_is_false.
  rewrite !andb_true_iff, !bool_decide_eq_true. lra.
Qed.

End ExpandedRectangleTests.

Ltac in_zone :=
  apply expanded_rect_in; unfold Rmin, Rmax; repeat destruct (Rle_dec _ _); lra.

Ltac out_of_zone :=
  apply expanded_rect_out_lat; unfold Rmin, Rmax; repeat destruct (Rle_dec _ _); lra.

Ltac not_removed :=
  unfold point_removed, near_rects, rect_unit; cbn [existsb pt_lat pt_lon];
  rewrite !orb_false_r; repeat apply orb_false_intro; rect_test.

Lemma near_doc_new_segments
    (max_stray_length : R) (remove_stray : bool) (max_stray_vicinity : option R) :
  out_new_segments
    (process_gpx_with_stats near_rects [] max_stray_length remove_stray
       max_stray_vicinity near_doc)
  = [far_seg] ++ near_seg :: [].
Proof.
  destruct (process_out_doc near_rects [] max_stray_length max_stray_vicinity
              remove_stray near_doc) as (_ & _ & _ & ->).
  rewrite first_pass_segments_of.
  change (concat (map trksegs near_doc)) with [far_seg; near_seg].
  cbn [map concat]. rewrite !segments_of_clean; [done | |].
  - split; [done |]. unfold near_seg. repeat apply Forall_cons_2;
      [not_removed | not_removed | not_removed | apply Forall_nil_2].
  - split; [done |]. unfold far_seg. apply Forall_singleton. not_removed.
Qed.

Lemma near_seg_zones :
  near_rect (Some 111111%R) near_seg rect_unit = true
  /\ near_rect (Some 111111%R) near_seg (2, 0, 3, 1)%R = true
  /\ near_rect (Some 111111%R) near_seg (10, 10, 11, 11)%R = false
  /\ near_rect (Some 111111%R) far_seg rect_unit = false
  /\ near_rect (Some 111111%R) far_seg (2, 0, 3, 1)%R = false
  /\ near_rect (Some 111111%R) far_seg (10, 10, 11, 11)%R = false.
Proof.
  unfold near_rect, near_seg, far_seg, rect_unit. cbn [existsb pt_lat pt_lon].
  repeat split.
  - rewrite (expanded_rect_out_lat 5) by (unfold Rmin, Rmax; repeat destruct (Rle_dec _ _); lra).
    rewrite (expanded_rect_in (3 / 2)) by (unfold Rmin, Rmax; repeat destruct (Rle_dec _ _); lra).
    done.
  - rewrite (expanded_rect_out_lat 5) by (unfold Rmin, Rmax; repeat destruct (Rle_dec _ _); lra).
    rewrite (expanded_rect_in (3 / 2)) by (unfold Rmin, Rmax; repeat destruct (Rle_dec _ _); lra).
    done.
  - rewrite !orb_false_r. repeat apply orb_false_intro; out_of_zone.
  - rewrite orb_false_r. out_of_zone.
  - rewrite orb_false_r. out_of_zone.
  - rewrite orb_false_r. out_of_zone.
Qed.

Lemma near_seg_first_match :
  near_seg = [mk_trkpt 5 (1 / 2) [] []]
             ++ mk_trkpt (3 / 2) (1 / 2) [] [] :: [mk_trkpt (8 / 5) (1 / 2) [] []]
  /\ Forall (fun pt => point_in_expanded_rectangle (pt_lat pt) (pt_lon pt) rect_unit
                         (Some 111111%R) = false) [mk_trkpt 5 (1 / 2) [] []]
  /\ point_in_expanded_rectangle (3 / 2) (1 / 2) rect_unit (Some 111111%R) = true
  /\ point_in_expanded_rectangle (8 / 5) (1 / 2) rect_unit (Some 111111%R) = true.
Proof.
  split; [done |]. unfold rect_unit. split; [| split].
  - apply Forall_singleton. cbn [pt_lat pt_lon]. out_of_zone.
  - in_zone.
  - in_zone.
Qed.

Lemma near_seg_near_some :
  near_some_region near_rects [] (Some 111111%R) near_seg = true.
Proof.
  destruct near_seg_zones as (H1 & _).
  unfold near_some_region, near_rects. cbn [existsb]. by rewrite H1.
Qed.

Lemma near_doc_recorded (rc : rect) :
  near_rect (Some 111111%R) far_seg rc = false ->
  recorded_lengths (seg_length near_seg)
    (fun s => near_rect (Some 111111%R) s rc) [far_seg] = [].
Proof.
  intros H. unfold recorded_lengths. cbn [List.filter].
  by rewrite H, andb_false_r.
Qed.

(** The run of [near_doc] with the bound set to the length of its second
    segment and a vicinity of 111111 m: the second segment, of index 1,
    has three points, the second of which is the first in the zone of
    the first rectangle; it is flagged by the first two rectangles and
    not by the third. *)
Lemma classify_eligible_segment_witness :
  let len := seg_length near_seg in
  let out := process_gpx_with_stats near_rects [] len true (Some 111111%R)
               near_doc in
  stray_rect (out_stray out) = [[len]; [len]; []]
  /\ 1 ∈ global_stray_indices (out_stray out)
  /\ size (global_stray_indices (out_stray out)) = 1
  /\ scan_rect (Some 111111%R) rect_unit 0 1 len near_seg
       (init_stray_stats near_rects [])
     = record_rect 0 1 len (init_stray_stats near_rects []).
Proof.
  intros len out.
  destruct near_seg_zones as (Hn1 & Hn2 & Hn3 & Hf1 & Hf2 & Hf3).
  destruct near_seg_first_match as (Hsplit & Hpre & Hp & _).
  destruct (classify_eligible_segment near_rects [] len (Some 111111%R) true
              near_doc [far_seg] [] near_seg
              (near_doc_new_segments len true (Some 111111%R)) (Rle_refl len))
    as (_ & _ & _ & Hfirst & _ & _ & _ & Hlists & _ & Hin & Hsize).
  fold out in Hlists, Hin, Hsize.
  split; [| split; [| split]].
  - rewrite Hlists. unfold near_rects. cbn [map].
    rewrite Hn1, Hn2, Hn3, !near_doc_recorded by done. done.
  - apply Hin. apply near_seg_near_some.
  - rewrite Hsize, near_seg_near_some.
    unfold short_and_near, near_some_region, near_rects.
    cbn [List.filter existsb length]. by rewrite Hf1, Hf2, Hf3, andb_false_r.
  - by destruct (Hfirst rect_unit 0 [mk_trkpt 5 (1 / 2) [] []]
                   (mk_trkpt (3 / 2) (1 / 2) [] [])
                   [mk_trkpt (8 / 5) (1 / 2) [] []]
                   (init_stray_stats near_rects []) Hsplit Hpre Hp).
Defined.

(** The same run: the length of the second segment is the bound, and the
    segment is flagged, its length recorded for the two rectangles it is
    near; with the bound below its length it is not. *)
Lemma stray_threshold_inclusive_witness :
  let len := seg_length near_seg in
  let out := process_gpx_with_stats near_rects [] len true (Some 111111%R)
               near_doc in
  1 ∈ global_stray_indices (out_stray out)
  /\ stray_rect (out_stray out) = [[len]; [len]; []].
Proof.
  intros len out.
  destruct near_seg_zones as (Hn1 & Hn2 & Hn3 & Hf1 & Hf2 & Hf3).
  destruct (stray_threshold_inclusive near_rects [] len (Some 111111%R) true
              near_doc [far_seg] [] near_seg
              (near_doc_new_segments len true (Some 111111%R)))
    as (_ & _ & _ & _ & Heq).
  destruct (Heq eq_refl) as (Hin & Hlists & _). fold out in Hin, Hlists.
  split.
  - apply Hin. apply near_seg_near_some.
  - rewrite Hlists. unfold near_rects. cbn [map].
    rewrite Hn1, Hn2, Hn3, !near_doc_recorded by done. done.
Defined.
